(** * graphite: representation bookkeeping of the NequIP model builder and
      the MeshGraphNets convolution

    Shallow embedding of
      - [graphite/nn/models/e3nn_nequip.py]: [tp_path_exists], [Compose],
        [E3NN_NequIP.__init__] and [E3NN_NequIP.forward];
      - [graphite/nn/conv/mgn_conv.py]: [EdgeProcessor], [NodeProcessor] and
        [MeshGraphNetsConv].

    Python exceptions are values of [exn]; a computation that may raise
    returns [result A]. *)

From Stdlib Require Import List ZArith Arith Bool Lia QArith Permutation.
Import ListNotations.
Close Scope Q_scope.
Open Scope nat_scope.

Set Implicit Arguments.

(** ** Exceptions and the error monad *)

Inductive result (E A : Type) : Type :=
| Ok (a : A)
| Raise (e : E).
Arguments Ok {E A} a.
Arguments Raise {E A} e.

Definition bind {E A B} (c : result E A) (k : A -> result E B) : result E B :=
  match c with
  | Ok a => k a
  | Raise e => Raise e
  end.

Notation "x <- c ;; k" := (bind c (fun x => k))
  (at level 61, c at next level, right associativity).
Notation "' pat <- c ;; k" := (bind c (fun x => match x with pat => k end))
  (at level 61, pat pattern, c at next level, right associativity).

(** ** The representation algebra consumed from e3nn.o3 *)

(** Parity of an irrep: the source stores [p] as the integer 1 or -1. *)
Inductive Parity : Type := Even | Odd.

Definition Parity_eqb (a b : Parity) : bool :=
  match a, b with
  | Even, Even | Odd, Odd => true
  | _, _ => false
  end.

(** The integer the library stores for a parity. *)
Definition p_val (a : Parity) : Z :=
  match a with Even => 1%Z | Odd => (-1)%Z end.

(** [self.p * other.p] on the two signs. *)
Definition Parity_mul (a b : Parity) : Parity :=
  match a, b with
  | Even, x => x
  | Odd, Even => Odd
  | Odd, Odd => Even
  end.

Module Irrep.

(** Modelled from the spec: e3nn's [o3.Irrep] is a library type that is not
    part of the repository sources.  Section 3: an irrep label is a pair
    (degree l >= 0, parity p in {+1, -1}). *)
Record t : Type := mk { l : nat; p : Parity }.

Definition eqb (a b : t) : bool :=
  Nat.eqb (l a) (l b) && Parity_eqb (p a) (p b).

(** [ir.dim], the dimension 2l+1 of the irrep. *)
Definition dim (a : t) : nat := 2 * l a + 1.

(** Modelled from the spec: [Irrep.__mul__] of e3nn.  Section 3: the
    product of two labels is the set of labels admitted by the coupling
    rule, degree |l1 - l2| <= l <= l1 + l2 and parity p1 * p2.  The labels
    are produced in increasing degree, as [range(lmin, lmax + 1)] does. *)
Definition mul (a b : t) : list t :=
  let pp := Parity_mul (p a) (p b) in
  let lmin := (l a - l b) + (l b - l a) in
  let lmax := l a + l b in
  map (fun d => mk d pp) (seq lmin (lmax + 1 - lmin)).

(** [x in ir1 * ir2]: Python's membership test on the produced sequence. *)
Definition mem (x : t) (xs : list t) : bool := existsb (eqb x) xs.

End Irrep.

(** The two scalar labels written ["0e"] and ["0o"] in the source. *)
Definition ir_0e : Irrep.t := Irrep.mk 0 Even.
Definition ir_0o : Irrep.t := Irrep.mk 0 Odd.

Module Irreps.

(** Modelled from the spec: e3nn's [o3.Irreps] is a library type that is
    not part of the repository sources.  Section 3: an ordered sequence of
    (multiplicity, irrep label) pairs.  The library accepts a multiplicity
    of zero, so multiplicities are natural numbers here. *)
Definition t : Type := list (nat * Irrep.t).

(** [irreps.dim]: the sum of [mul * ir.dim]. *)
Definition dim (x : t) : nat :=
  fold_right (fun c acc => fst c * Irrep.dim (snd c) + acc) 0 x.

(** One step of the loop of [simplify]; [racc] is the output built so far,
    last entry first, so that its head is [out[-1]]. *)
Definition simplify_step (racc : t) (c : nat * Irrep.t) : t :=
  match racc with
  | (m0, ir0) :: rest =>
      if Irrep.eqb ir0 (snd c) then (m0 + fst c, snd c) :: rest
      else if 0 <? fst c then c :: racc else racc
  | [] => if 0 <? fst c then [c] else []
  end.

(** Modelled from the spec: [Irreps.simplify] of e3nn.  Section 3:
    simplify merges duplicate labels by summing multiplicities.  The
    library merges an entry into the previous one when both carry the same
    label, and leaves out entries of multiplicity zero that start a new
    group. *)
Definition simplify (x : t) : t := rev (fold_left simplify_step x []).

(** [a + b] on representations: concatenation of the two sequences. *)
Definition add (a b : t) : t := a ++ b.

End Irreps.

(** The total multiplicity of a representation. *)
Definition num_irreps (x : Irreps.t) : nat := list_sum (map fst x).

(** ** [tp_path_exists] (e3nn_nequip.py, lines 10-19) *)

(** The inner loop [for _, ir2 in irreps_in2: if ir_out in ir1 * ir2: return True]. *)
Definition tp_inner (ir1 : Irrep.t) (irreps_in2 : Irreps.t) (ir_out : Irrep.t) : bool :=
  existsb (fun c2 => Irrep.mem ir_out (Irrep.mul ir1 (snd c2))) irreps_in2.

Definition tp_path_exists (irreps_in1 irreps_in2 : Irreps.t) (ir_out : Irrep.t) : bool :=
  let irreps_in1 := Irreps.simplify irreps_in1 in
  let irreps_in2 := Irreps.simplify irreps_in2 in
  existsb (fun c1 => tp_inner (snd c1) irreps_in2 ir_out) irreps_in1.

(** ** Exceptions raised by the modelled code *)

Inductive exn : Type :=
| IndexError
    (* [radial_neurons[0]] or [self.irreps_in[0]] on an empty sequence, or a
       row index outside a tensor *)
| ValueError_gates (irreps irreps_edge irreps_gated : Irreps.t)
    (* line 90; the three representations are those the message prints *)
| ValueError_irrep
    (* [o3.Irreps([(mul, None), ...])]: [None] is not an irrep label *)
| UnboundLocalError
    (* a local variable read before any assignment *)
| RuntimeError_shape.
    (* tensors whose sizes do not fit an operation *)

Definition res (A : Type) : Type := result exn A.

(** ** The modules assembled by the builder *)

(** The activation functions named in lines 75-76. *)
Inductive Activation : Type := silu | tanh | sigmoid.

(** [act_scalars = {1: silu, -1: tanh}] and [act_gates = {1: sigmoid, -1: tanh}]. *)
Definition act_scalars (q : Parity) : Activation :=
  match q with Even => silu | Odd => tanh end.
Definition act_gates (q : Parity) : Activation :=
  match q with Even => sigmoid | Odd => tanh end.

Module Gate.

(** The five arguments [Gate(...)] is called with on lines 95-99. *)
Record t : Type := mk {
  irreps_scalars : Irreps.t;
  acts_scalars   : list Activation;
  irreps_gates   : Irreps.t;
  acts_gates     : list Activation;
  irreps_gated   : Irreps.t
}.

(** Modelled from the spec: [e3nn.nn.Gate] is a library class that is not
    part of the repository sources.  Section 4.4: its declared required-input
    representation is the concatenation of (scalars, gates, gated). *)
Definition irreps_in (g : t) : Irreps.t :=
  Irreps.add (Irreps.add (irreps_scalars g) (irreps_gates g)) (irreps_gated g).

(** Modelled from the spec: [e3nn.nn.Gate] is a library class that is not
    part of the repository sources.  Section 4.4: its declared output
    representation is the concatenation of (scalars, gated); the gates are
    consumed and do not appear. *)
Definition irreps_out (g : t) : Irreps.t :=
  Irreps.add (irreps_scalars g) (irreps_gated g).

End Gate.

Module E3NN_Interaction.

(** Modelled from the spec: [E3NN_Interaction] lives in
    [conv/e3nn_nequip_interaction.py], which is not among the sources.
    Section 4.5: it is built from (irreps_in, irreps_node_attr, irreps_edge,
    irreps_out, radial hyperparameters, normalization hyperparameter); the
    layer keeps the representations it was built with. *)
Record t : Type := mk {
  irreps_in      : Irreps.t;
  irreps_node    : Irreps.t;
  irreps_edge    : Irreps.t;
  irreps_out     : Irreps.t;
  radial_neurons : list nat;
  num_neighbors  : Q
}.

End E3NN_Interaction.

Module Compose.

Record t : Type := mk {
  first      : E3NN_Interaction.t;
  second     : Gate.t;
  irreps_in  : Irreps.t;
  irreps_out : Irreps.t
}.

(** [Compose.__init__] (lines 23-28). *)
Definition __init__ (first : E3NN_Interaction.t) (second : Gate.t) : t :=
  mk first second (E3NN_Interaction.irreps_in first) (Gate.irreps_out second).

End Compose.

(** ** [E3NN_NequIP.__init__] (e3nn_nequip.py, lines 51-119) *)

Module E3NN_NequIP.

(** The arguments of the constructor. *)
Record args : Type := mk_args {
  a_irreps_in      : Irreps.t;
  a_irreps_hidden  : Irreps.t;
  a_irreps_out     : Irreps.t;
  a_irreps_node    : Irreps.t;
  a_irreps_edge    : Irreps.t;
  a_num_convs      : Z;
  a_radial_neurons : list nat;
  a_num_species    : nat;
  a_max_radius     : Q;
  a_num_neighbors  : Q
}.

(** The constructed model. *)
Record t : Type := mk {
  irreps_in      : Irreps.t;
  irreps_hidden  : Irreps.t;
  irreps_out     : Irreps.t;
  irreps_node    : Irreps.t;
  irreps_edge    : Irreps.t;
  num_convs      : Z;
  max_radius     : Q;
  num_edge_basis : nat;
  node_embedding : nat * nat;   (* Embedding(num_species, embedding_dim) *)
  interactions   : list Compose.t;
  out            : E3NN_Interaction.t
}.

(** Line 81: the comprehension selecting the scalars partition. *)
Definition irreps_scalars (a : args) (irreps : Irreps.t) : Irreps.t :=
  filter (fun c => (Irrep.l (snd c) =? 0)
                   && tp_path_exists irreps (a_irreps_edge a) (snd c))
         (a_irreps_hidden a).

(** Line 82: the comprehension selecting the gated partition. *)
Definition irreps_gated (a : args) (irreps : Irreps.t) : Irreps.t :=
  filter (fun c => (0 <? Irrep.l (snd c))
                   && tp_path_exists irreps (a_irreps_edge a) (snd c))
         (a_irreps_hidden a).

(** Lines 84-92: the label [ir] of the gate scalars, [None] when no gate is
    needed. *)
Definition gate_ir (a : args) (irreps gated : Irreps.t) : res (option Irrep.t) :=
  if 0 <? Irreps.dim gated then
    if tp_path_exists (a_irreps_node a) (a_irreps_edge a) ir_0e then Ok (Some ir_0e)
    else if tp_path_exists (a_irreps_node a) (a_irreps_edge a) ir_0o then Ok (Some ir_0o)
    else Raise (ValueError_gates irreps (a_irreps_edge a) gated)
  else Ok None.

(** Line 93: [o3.Irreps([(mul, ir) for mul, _ in irreps_gated]).simplify()].
    With [ir = None] the library cannot read an entry as (multiplicity,
    label) and raises; an empty comprehension has no entry to read. *)
Definition irreps_gates (ir : option Irrep.t) (gated : Irreps.t) : res Irreps.t :=
  match ir with
  | Some g => Ok (Irreps.simplify (map (fun c => (fst c, g)) gated))
  | None =>
      match gated with
      | [] => Ok (Irreps.simplify [])
      | _ :: _ => Raise ValueError_irrep
      end
  end.

(** Lines 81-110: one turn of the loop, from the current representation
    [irreps] to the composed layer that is appended. *)
Definition layer (a : args) (irreps : Irreps.t) : res Compose.t :=
  let scalars := irreps_scalars a irreps in
  let gated := irreps_gated a irreps in
  ir <- gate_ir a irreps gated ;;
  gates <- irreps_gates ir gated ;;
  let gate :=
    Gate.mk scalars (map (fun c => act_scalars (Irrep.p (snd c))) scalars)
            gates (map (fun c => act_gates (Irrep.p (snd c))) gates)
            gated in
  let conv :=
    E3NN_Interaction.mk irreps (a_irreps_node a) (a_irreps_edge a)
                        (Gate.irreps_in gate)
                        (a_radial_neurons a) (a_num_neighbors a) in
  Ok (Compose.__init__ conv gate).

(** Lines 80-110: [n] turns of the loop starting from [irreps]; the result is
    the list of appended layers and the representation left in [irreps]. *)
Fixpoint loop (a : args) (n : nat) (irreps : Irreps.t)
  : res (list Compose.t * Irreps.t) :=
  match n with
  | O => Ok ([], irreps)
  | S n' =>
      c <- layer a irreps ;;
      ' (rest, final) <- loop a n' (Gate.irreps_out (Compose.second c)) ;;
      Ok (c :: rest, final)
  end.

Definition __init__ (a : args) : res t :=
  num_edge_basis <-
    match a_radial_neurons a with
    | [] => Raise IndexError
    | n0 :: _ => Ok n0
    end ;;
  embedding_dim <-
    match a_irreps_in a with
    | [] => Raise IndexError
    | c0 :: _ => Ok (fst c0)
    end ;;
  ' (layers, irreps) <- loop a (Z.to_nat (a_num_convs a - 1)) (a_irreps_in a) ;;
  Ok (mk (a_irreps_in a) (a_irreps_hidden a) (a_irreps_out a)
         (a_irreps_node a) (a_irreps_edge a) (a_num_convs a)
         (a_max_radius a) num_edge_basis
         (a_num_species a, embedding_dim)
         layers
         (E3NN_Interaction.mk irreps (a_irreps_node a) (a_irreps_edge a)
                              (a_irreps_out a)
                              (a_radial_neurons a) (a_num_neighbors a))).

(** The same arguments with another hidden representation. *)
Definition with_hidden (a : args) (hidden : Irreps.t) : args :=
  mk_args (a_irreps_in a) hidden (a_irreps_out a) (a_irreps_node a)
          (a_irreps_edge a) (a_num_convs a) (a_radial_neurons a)
          (a_num_species a) (a_max_radius a) (a_num_neighbors a).

(** The default arguments of the constructor (lines 52-61). *)
Definition default_args : args :=
  mk_args [(64, Irrep.mk 0 Even)]
          [(128, Irrep.mk 0 Even); (16, Irrep.mk 1 Even)]
          [(4, Irrep.mk 0 Even)]
          [(1, Irrep.mk 0 Even)]
          [(1, Irrep.mk 0 Even); (1, Irrep.mk 1 Even); (1, Irrep.mk 2 Even)]
          3%Z [16; 64] 1 (315 # 100)%Q (12 # 1)%Q.

(** Arguments whose node attributes (1x1o) and edge representation
    (1x0e + 1x2e) reach neither 0e nor 0o, while 8x2e is gated. *)
Definition no_gate_args : args :=
  mk_args [(64, Irrep.mk 0 Even)]
          [(8, Irrep.mk 0 Even); (8, Irrep.mk 2 Even)]
          [(4, Irrep.mk 0 Even)]
          [(1, Irrep.mk 1 Odd)]
          [(1, Irrep.mk 0 Even); (1, Irrep.mk 2 Even)]
          3%Z [16; 64] 1 (315 # 100)%Q (12 # 1)%Q.

End E3NN_NequIP.

(** The output representation of the gate of a composed layer. *)
Definition gate_out (c : Compose.t) : Irreps.t := Gate.irreps_out (Compose.second c).

(** The input representation the interaction of a composed layer was built
    with. *)
Definition conv_in (c : Compose.t) : Irreps.t :=
  E3NN_Interaction.irreps_in (Compose.first c).

(** ** [E3NN_NequIP.forward] (e3nn_nequip.py, lines 121-142) *)

(** The numeric kernels [forward] calls.  They belong to torch, e3nn and the
    interaction module, none of which is redefined by the repository; each
    may raise.  [Tensor] is the type of their values. *)
Class Kernels (Tensor : Type) : Type := {
  (* [x.shape[0]] *)
  shape0 : Tensor -> nat;
  (* [x.new_ones((r, c))] *)
  new_ones : Tensor -> nat -> nat -> Tensor;
  (* [self.node_embedding(x)] *)
  Embedding_forward : nat * nat -> Tensor -> res Tensor;
  (* [soft_one_hot_linspace(edge_vec.norm(dim=1), start=0.0, end=max_radius,
      number=num_edge_basis, basis='smooth_finite', cutoff=True)
      .mul(num_edge_basis**0.5)] *)
  radial_basis : Tensor -> Q -> nat -> res Tensor;
  (* [o3.spherical_harmonics(irreps_edge, edge_vec, normalize=True,
      normalization='component')] *)
  spherical_harmonics : Irreps.t -> Tensor -> res Tensor;
  (* [E3NN_Interaction.forward(h, z, edge_index, edge_sh, h_bnd)] *)
  Interaction_forward :
    E3NN_Interaction.t -> Tensor -> Tensor -> Tensor -> Tensor -> Tensor -> res Tensor;
  (* [Gate.forward(h)] *)
  Gate_forward : Gate.t -> Tensor -> res Tensor
}.

(** The graph record handed to [forward]; [d_z = None] when the record has no
    ['z'] entry. *)
Record Data (Tensor : Type) : Type := mk_Data {
  d_x          : Tensor;
  d_edge_index : Tensor;
  d_edge_attr  : Tensor;
  d_z          : option Tensor
}.

(** Reading a local variable: [None] is a name that no assignment has bound
    on the path taken. *)
Definition read_local {A : Type} (v : option A) : res A :=
  match v with
  | Some a => Ok a
  | None => Raise UnboundLocalError
  end.

(** [Compose.forward] (lines 30-32). *)
Definition Compose_forward {Tensor} `{Kernels Tensor} (c : Compose.t)
    (h z edge_index edge_sh h_bnd : Tensor) : res Tensor :=
  x <- Interaction_forward (Compose.first c) h z edge_index edge_sh h_bnd ;;
  Gate_forward (Compose.second c) x.

(** Lines 139-140: the loop over [self.interactions]; the arguments of each
    call are evaluated before the call, the local [z] among them. *)
Fixpoint forward_layers {Tensor} `{Kernels Tensor} (layers : list Compose.t)
    (h_atm : Tensor) (z : option Tensor) (edge_index edge_sh h_bnd : Tensor)
  : res Tensor :=
  match layers with
  | [] => Ok h_atm
  | c :: rest =>
      zv <- read_local z ;;
      h <- Compose_forward c h_atm zv edge_index edge_sh h_bnd ;;
      forward_layers rest h z edge_index edge_sh h_bnd
  end.

Definition forward {Tensor} `{Kernels Tensor} (self : E3NN_NequIP.t)
    (data : Data Tensor) : res Tensor :=
  let x := d_x data in
  let edge_index := d_edge_index data in
  let edge_vec := d_edge_attr data in
  (* lines 123-124: the only assignment to [z] *)
  let z : option Tensor :=
    match d_z data with
    | None => Some (new_ones x (shape0 x) 1)
    | Some _ => None
    end in
  h_atm <- Embedding_forward (E3NN_NequIP.node_embedding self) x ;;
  h_bnd <- radial_basis edge_vec (E3NN_NequIP.max_radius self)
                        (E3NN_NequIP.num_edge_basis self) ;;
  edge_sh <- spherical_harmonics (E3NN_NequIP.irreps_edge self) edge_vec ;;
  h_atm <- forward_layers (E3NN_NequIP.interactions self) h_atm z
                          edge_index edge_sh h_bnd ;;
  zv <- read_local z ;;
  Interaction_forward (E3NN_NequIP.out self) h_atm zv edge_index edge_sh h_bnd.

(** The layer sequence applied with one weighting [z] at every layer. *)
Fixpoint apply_layers {Tensor} `{Kernels Tensor} (layers : list Compose.t)
    (h z edge_index edge_sh h_bnd : Tensor) : res Tensor :=
  match layers with
  | [] => Ok h
  | c :: rest =>
      h' <- Compose_forward c h z edge_index edge_sh h_bnd ;;
      apply_layers rest h' z edge_index edge_sh h_bnd
  end.

(** ** [mgn_conv.py]: two-dimensional tensors *)

(** The arithmetic of tensor entries that the convolution uses. *)
Class Scalar (F : Type) : Type := {
  f_zero : F;
  f_add  : F -> F -> F
}.

(** A tensor of shape (number of rows, [ncols]), stored row by row. *)
Record Tensor2 (F : Type) : Type := mk_T {
  ncols : nat;
  rows  : list (list F)
}.
Arguments mk_T {F} ncols rows.

Definition nrows {F} (t : Tensor2 F) : nat := length (rows t).

(** Every stored row has the declared width. *)
Definition well_shaped {F} (t : Tensor2 F) : Prop :=
  Forall (fun r => length r = ncols t) (rows t).

(** [mapM] of the error monad: the first exception wins. *)
Fixpoint mapM {A B} (f : A -> res B) (xs : list A) : res (list B) :=
  match xs with
  | [] => Ok []
  | a :: xs' => b <- f a ;; bs <- mapM f xs' ;; Ok (b :: bs)
  end.

(** [x[i]] with an index tensor [i]: the rows of [x] picked by [i]. *)
Definition index_rows {F} (x : Tensor2 F) (i : list nat) : res (Tensor2 F) :=
  rs <- mapM (fun k => match nth_error (rows x) k with
                       | Some r => Ok r
                       | None => Raise IndexError
                       end) i ;;
  Ok (mk_T (ncols x) rs).

Fixpoint zip_with {A B C} (f : A -> B -> C) (xs : list A) (ys : list B) : list C :=
  match xs, ys with
  | a :: xs', b :: ys' => f a b :: zip_with f xs' ys'
  | _, _ => []
  end.

(** [torch.cat([a, b], dim=-1)]. *)
Definition cat2 {F} (a b : Tensor2 F) : res (Tensor2 F) :=
  if nrows a =? nrows b
  then Ok (mk_T (ncols a + ncols b) (zip_with (@app F) (rows a) (rows b)))
  else Raise RuntimeError_shape.

(** [torch.cat([a, b, c], dim=-1)]. *)
Definition cat3 {F} (a b c : Tensor2 F) : res (Tensor2 F) :=
  ab <- cat2 a b ;; cat2 ab c.

(** Entrywise sum of two rows. *)
Definition add_row {F} `{Scalar F} (r s : list F) : list F := zip_with f_add r s.

(** What [out += b] does to [b] first: a dimension of size one is repeated
    to the size of [out]; any other difference of sizes is an error. *)
Definition broadcast_to {F} `{Scalar F} (b : Tensor2 F) (n c : nat) : res (Tensor2 F) :=
  rs <- (if nrows b =? n then Ok (rows b)
         else match rows b with
              | [r] => Ok (repeat r n)
              | _ => Raise RuntimeError_shape
              end) ;;
  if ncols b =? c then Ok (mk_T c rs)
  else if ncols b =? 1 then Ok (mk_T c (map (fun r => repeat (hd f_zero r) c) rs))
  else Raise RuntimeError_shape.

(** [out += b]. *)
Definition iadd {F} `{Scalar F} (out b : Tensor2 F) : res (Tensor2 F) :=
  b' <- broadcast_to b (nrows out) (ncols out) ;;
  Ok (mk_T (ncols out) (zip_with add_row (rows out) (rows b'))).

Fixpoint set_nth {A} (xs : list A) (k : nat) (v : A) : list A :=
  match xs, k with
  | [], _ => []
  | _ :: xs', O => v :: xs'
  | a :: xs', S k' => a :: set_nth xs' k' v
  end.

(** [out.scatter_add_(0, index, src)]: row [e] of [src] is added to row
    [index[e]] of [out], one edge after the other. *)
Fixpoint scatter_add_ {F} `{Scalar F} (out : list (list F)) (index : list nat)
    (src : list (list F)) : res (list (list F)) :=
  match index, src with
  | k :: index', r :: src' =>
      match nth_error out k with
      | Some o => scatter_add_ (set_nth out k (add_row o r)) index' src'
      | None => Raise IndexError
      end
  | _, _ => Ok out
  end.

(** [scatter(src, index=index, dim=0, dim_size=dim_size)] of torch_geometric,
    with its default reduction (sum): a fresh tensor of zeros with [dim_size]
    rows receives the rows of [src]. *)
Definition scatter {F} `{Scalar F} (src : Tensor2 F) (index : list nat)
    (dim_size : nat) : res (Tensor2 F) :=
  if length index =? nrows src
  then rs <- scatter_add_ (repeat (repeat f_zero (ncols src)) dim_size)
                          index (rows src) ;;
       Ok (mk_T (ncols src) rs)
  else Raise RuntimeError_shape.

(** Modelled from the spec: [MLP] lives in [graphite/nn/mlp.py], which is not
    among the sources.  Section 6: a black-box per-edge / per-node transform
    built from a layer-width specification [hs].  [net] is the transform that
    [nn.Sequential(MLP(hs, act), nn.LayerNorm(hs[-1]))] applies to each row:
    rows of width [hs[0]] are accepted, and the result is declared with width
    [hs[-1]]. *)
Record Sequential (F : Type) : Type := mk_Seq {
  hs  : list nat;
  net : list F -> list F
}.
Arguments mk_Seq {F} hs net.

Definition Sequential_forward {F} (s : Sequential F) (t : Tensor2 F) : res (Tensor2 F) :=
  if ncols t =? hd 0 (hs s)
  then Ok (mk_T (last (hs s) 0) (map (net s) (rows t)))
  else Raise RuntimeError_shape.

(** The transform keeps the contract of its width specification. *)
Definition respects_widths {F} (s : Sequential F) : Prop :=
  forall r, length r = hd 0 (hs s) -> length (net s r) = last (hs s) 0.

(** ** [EdgeProcessor], [NodeProcessor], [MeshGraphNetsConv] *)

Module EdgeProcessor.

Record t (F : Type) : Type := mk { edge_mlp : Sequential F }.
Arguments mk {F} edge_mlp.

(** Lines 24-28. *)
Definition forward {F} `{Scalar F} (self : t F) (x_i x_j edge_attr : Tensor2 F)
  : res (Tensor2 F) :=
  out <- cat3 x_i x_j edge_attr ;;
  out <- Sequential_forward (edge_mlp self) out ;;
  out <- iadd out edge_attr ;;
  Ok out.

End EdgeProcessor.

Module NodeProcessor.

Record t (F : Type) : Type := mk { node_mlp : Sequential F }.
Arguments mk {F} node_mlp.

(** Lines 41-47. *)
Definition forward {F} `{Scalar F} (self : t F) (x : Tensor2 F)
    (edge_index : list nat * list nat) (edge_attr : Tensor2 F) : res (Tensor2 F) :=
  let '(i, j) := edge_index in
  out <- scatter edge_attr i (nrows x) ;;
  out <- cat2 x out ;;
  out <- Sequential_forward (node_mlp self) out ;;
  out <- iadd out x ;;
  Ok out.

End NodeProcessor.

Module MeshGraphNetsConv.

Record t (F : Type) : Type := mk {
  node_dim : nat;
  edge_dim : nat;
  edge_processor : EdgeProcessor.t F;
  node_processor : NodeProcessor.t F
}.
Arguments mk {F} node_dim edge_dim edge_processor node_processor.

(** Lines 51-56.  [edge_net] and [node_net] stand for the row transforms of
    the two freshly created networks. *)
Definition __init__ {F} (node_dim edge_dim : nat) (edge_net node_net : list F -> list F)
  : t F :=
  mk node_dim edge_dim
     (EdgeProcessor.mk (mk_Seq ([node_dim * 2 + edge_dim] ++ repeat edge_dim 3) edge_net))
     (NodeProcessor.mk (mk_Seq ([node_dim + edge_dim] ++ repeat node_dim 3) node_net)).

(** Lines 58-62. *)
Definition forward {F} `{Scalar F} (self : t F) (x : Tensor2 F)
    (edge_index : list nat * list nat) (edge_attr : Tensor2 F)
  : res (Tensor2 F * Tensor2 F) :=
  let '(i, j) := edge_index in
  x_i <- index_rows x i ;;
  x_j <- index_rows x j ;;
  edge_attr <- EdgeProcessor.forward (edge_processor self) x_i x_j edge_attr ;;
  x <- NodeProcessor.forward (node_processor self) x edge_index edge_attr ;;
  Ok (x, edge_attr).

End MeshGraphNetsConv.

(** *** The expected values, written independently of the code *)

(** The rows of [src] whose index is [n], in edge order. *)
Fixpoint rows_into {F} (n : nat) (index : list nat) (src : list (list F)) : list (list F) :=
  match index, src with
  | k :: index', r :: src' =>
      if k =? n then r :: rows_into n index' src' else rows_into n index' src'
  | _, _ => []
  end.

(** The aggregation at node [n]: the sum, from a row of zeros, of the rows
    sent to [n]. *)
Definition aggregate_at {F} `{Scalar F} (width n : nat) (index : list nat)
    (src : list (list F)) : list F :=
  fold_left add_row (rows_into n index src) (repeat f_zero width).

(** Row [e] of the expected edge output: the edge network on the
    concatenation (x_i, x_j, edge_attr), plus the original edge row. *)
Definition edge_row_spec {F} `{Scalar F} (edge_net : list F -> list F)
    (xi xj ea : list F) : list F :=
  add_row (edge_net (xi ++ xj ++ ea)) ea.

(** Row [n] of the expected node output: the node network on the
    concatenation of the node row and its aggregation, plus the node row. *)
Definition node_row_spec {F} `{Scalar F} (node_net : list F -> list F)
    (xn agg : list F) : list F :=
  add_row (node_net (xn ++ agg)) xn.

(** *** A small graph over the integers *)

#[local] Instance Scalar_Z : Scalar Z := {| f_zero := 0%Z; f_add := Z.add |}.

(** Three nodes of width 2 on a directed triangle with edges of width 1. *)
Definition tri_x : Tensor2 Z := mk_T 2 [[1; 2]; [3; 4]; [5; 6]]%Z.
Definition tri_edge_attr : Tensor2 Z := mk_T 1 [[10]; [20]; [30]]%Z.
Definition tri_i : list nat := [0; 1; 0].
Definition tri_j : list nat := [1; 2; 2].

(** Stand-ins for the two networks: the edge network sums its input, the
    node network returns the first entry and the sum. *)
Definition sum_net (r : list Z) : list Z := [fold_right Z.add 0%Z r].
Definition head_sum_net (r : list Z) : list Z := [hd 0%Z r; fold_right Z.add 0%Z r].

(** ** [order.py]: [steinhardt] (lines 12-31) *)

(** The numeric kernels of [steinhardt], each acting on one row or one
    entry of a tensor; they belong to torch and e3nn.  Only the way the rows
    are gathered and averaged over the graph is spelled out below. *)
Class OrderKernels (F : Type) : Type := {
  (* [o3.spherical_harmonics(Irreps([(1, (l, p))]), v, normalize=True,
      normalization='norm')] on one edge vector [v] *)
  sh_row : nat -> Parity -> list F -> list F;
  (* one entry of [out.true_divide_(count)] *)
  div_count : F -> nat -> F;
  (* one entry of [q_lm.abs().pow(2).sum(1)] *)
  abs_square_sum : list F -> F;
  (* one entry of [torch.einsum('li, lj, lk, ijk -> l', q_lm, q_lm, q_lm,
      o3.wigner_3j(l, l, l))] *)
  wigner_contract : nat -> list F -> F;
  (* one entry of [w_l / q_lm_square_sum.pow(3/2)] *)
  div_pow32 : F -> F -> F;
  (* one entry of [(4*math.pi / (2*l + 1) * q_lm_square_sum).sqrt()] *)
  q_of : nat -> F -> F
}.

(** Line 16: one row of 2l+1 harmonics for each edge vector, which must have
    three coordinates. *)
Definition edge_harmonics {F} `{OrderKernels F} (l : nat) (p : Parity)
    (edge_vec : Tensor2 F) : res (Tensor2 F) :=
  if ncols edge_vec =? 3
  then Ok (mk_T (2 * l + 1) (map (sh_row l p) (rows edge_vec)))
  else Raise RuntimeError_shape.

(** The number of rows [scatter] allocates when no [dim_size] is given:
    none for an empty index, else the largest index plus one. *)
Definition scatter_size (index : list nat) : nat :=
  match index with
  | [] => 0
  | _ :: _ => S (list_max index)
  end.

(** The divisor of row [n]: the number of entries sent to [n], or 1 when
    there is none. *)
Definition scatter_count (index : list nat) (n : nat) : nat :=
  Nat.max 1 (count_occ Nat.eq_dec index n).

(** [scatter(src, index, dim=0, reduce='mean')] of torch_scatter: the rows
    are summed per index into a tensor of [scatter_size index] rows of zeros
    and each row is divided by its count. *)
Definition scatter_mean {F} `{Scalar F} `{OrderKernels F} (src : Tensor2 F)
    (index : list nat) : res (Tensor2 F) :=
  if length index =? nrows src
  then sums <- scatter_add_ (repeat (repeat f_zero (ncols src)) (scatter_size index))
                            index (rows src) ;;
       Ok (mk_T (ncols src)
                (zip_with (fun n row => map (fun v => div_count v (scatter_count index n)) row)
                          (seq 0 (length sums)) sums))
  else Raise RuntimeError_shape.

Definition steinhardt {F} `{Scalar F} `{OrderKernels F} (l : nat)
    (edge_index : list nat * list nat) (edge_vec : Tensor2 F)
    (p : Parity) (second_shell_avg : bool) : res (list F * list F) :=
  let '(i, j) := edge_index in
  sh <- edge_harmonics l p edge_vec ;;
  q_lm <- scatter_mean sh j ;;
  q_lm <- (if second_shell_avg
           then q_lm_i <- index_rows q_lm i ;; scatter_mean q_lm_i j
           else Ok q_lm) ;;
  let q_lm_square_sum := map abs_square_sum (rows q_lm) in
  let w_l := map (wigner_contract l) (rows q_lm) in
  let w_l := zip_with div_pow32 w_l q_lm_square_sum in
  let q_l := map (q_of l) q_lm_square_sum in
  Ok (q_l, w_l).

(** The mean at node [n], written independently of [scatter_mean]: the sum of
    the rows sent to [n], each entry divided by the number of those rows (by
    1 when there is none). *)
Definition mean_at {F} `{Scalar F} `{OrderKernels F} (width n : nat)
    (index : list nat) (src : list (list F)) : list F :=
  map (fun v => div_count v (scatter_count index n))
      (aggregate_at width n index src).

(** Stand-ins for the kernels over the integers. *)
#[local] Instance OrderKernels_Z : OrderKernels Z := {|
  sh_row := fun _ _ v => v;
  div_count := fun v n => (v / Z.of_nat n)%Z;
  abs_square_sum := fun r => fold_right (fun v acc => (v * v + acc)%Z) 0%Z r;
  wigner_contract := fun _ r => fold_right Z.add 0%Z r;
  div_pow32 := fun w s => (w / s)%Z;
  q_of := fun _ s => s
|}.

(** [ir] occurs in [x] with a positive multiplicity. *)
Definition has_label (x : Irreps.t) (ir : Irrep.t) : Prop :=
  exists m, 0 < m /\ In (m, ir) x.

(** The label the gates get when one is looked for. *)
Definition gate_label (a : E3NN_NequIP.args) : Irrep.t :=
  if tp_path_exists (E3NN_NequIP.a_irreps_node a) (E3NN_NequIP.a_irreps_edge a) ir_0e
  then ir_0e else ir_0o.

(** Some scalar label is reachable from (irreps_node, irreps_edge). *)
Definition gate_reachable (a : E3NN_NequIP.args) : bool :=
  tp_path_exists (E3NN_NequIP.a_irreps_node a) (E3NN_NequIP.a_irreps_edge a) ir_0e
  || tp_path_exists (E3NN_NequIP.a_irreps_node a) (E3NN_NequIP.a_irreps_edge a) ir_0o.

(** * Properties *)

(** ** Labels and the coupling rule *)

Lemma Parity_eqb_eq (a b : Parity) : Parity_eqb a b = true <-> a = b.
Proof. destruct a, b; simpl; split; congruence. Qed.

Lemma Parity_mul_comm (a b : Parity) : Parity_mul a b = Parity_mul b a.
Proof. now destruct a, b. Qed.

(** [Parity_mul] is the product of the stored signs. *)
Lemma Parity_mul_val (a b : Parity) :
  p_val (Parity_mul a b) = (p_val a * p_val b)%Z.
Proof. now destruct a, b. Qed.

Lemma Irrep_eqb_eq (a b : Irrep.t) : Irrep.eqb a b = true <-> a = b.
Proof.
  destruct a as [la pa], b as [lb pb]; unfold Irrep.eqb; simpl.
  rewrite andb_true_iff, Nat.eqb_eq, Parity_eqb_eq.
  split; [intros [-> ->]; reflexivity | intros E; inversion E; auto].
Qed.

Lemma Irrep_mem_In (x : Irrep.t) (xs : list Irrep.t) :
  Irrep.mem x xs = true <-> In x xs.
Proof.
  unfold Irrep.mem. rewrite existsb_exists. split.
  - intros (y & Hy & E). apply Irrep_eqb_eq in E. now subst.
  - intros Hx. exists x. split; [assumption | now apply Irrep_eqb_eq].
Qed.

(** The coupling rule: the labels of [a * b] are those of parity
    [p a * p b] whose degree lies between |l a - l b| and l a + l b. *)
Lemma Irrep_mul_rule (a b x : Irrep.t) :
  In x (Irrep.mul a b) <->
  Irrep.p x = Parity_mul (Irrep.p a) (Irrep.p b) /\
  Irrep.l a - Irrep.l b <= Irrep.l x /\
  Irrep.l b - Irrep.l a <= Irrep.l x /\
  Irrep.l x <= Irrep.l a + Irrep.l b.
Proof.
  unfold Irrep.mul. rewrite in_map_iff. split.
  - intros (d & <- & Hd). apply in_seq in Hd. simpl. repeat split; lia.
  - intros (Hp & H1 & H2 & H3). exists (Irrep.l x). split.
    + destruct x as [lx px]. simpl in *. now rewrite Hp.
    + apply in_seq. lia.
Qed.

Lemma Irrep_mul_comm_In (a b x : Irrep.t) :
  In x (Irrep.mul a b) <-> In x (Irrep.mul b a).
Proof.
  rewrite !Irrep_mul_rule, (Parity_mul_comm (Irrep.p a)), (Nat.add_comm (Irrep.l a)).
  tauto.
Qed.

Lemma simplify_nil : Irreps.simplify [] = [].
Proof. reflexivity. Qed.

(** ** [tp_path_exists] *)

Lemma tp_inner_iff (ir1 : Irrep.t) (B : Irreps.t) (t : Irrep.t) :
  tp_inner ir1 B t = true <->
  exists c2, In c2 B /\ In t (Irrep.mul ir1 (snd c2)).
Proof.
  unfold tp_inner. rewrite existsb_exists.
  split; intros (c2 & Hc & Hm); exists c2; split; auto; now apply Irrep_mem_In.
Qed.

Lemma tp_path_exists_iff (A B : Irreps.t) (t : Irrep.t) :
  tp_path_exists A B t = true <->
  exists c1 c2, In c1 (Irreps.simplify A) /\ In c2 (Irreps.simplify B) /\
                In t (Irrep.mul (snd c1) (snd c2)).
Proof.
  unfold tp_path_exists. rewrite existsb_exists. split.
  - intros (c1 & H1 & Hin). apply tp_inner_iff in Hin as (c2 & H2 & Hm).
    now exists c1, c2.
  - intros (c1 & c2 & H1 & H2 & Hm). exists c1. split; [assumption|].
    apply tp_inner_iff. now exists c2.
Qed.

(** C4: [tp_path_exists A B t] is true exactly when, after both inputs are
    simplified, some pair of labels (ir1 of A, ir2 of B) has [t] in the
    coupling set ir1 * ir2; the result is a function of the three arguments
    alone; and with an empty representation on either side it is false. *)
Theorem C4_tp_path_exists_spec :
  forall (A B : Irreps.t) (t : Irrep.t),
    (tp_path_exists A B t = true <->
       exists m1 ir1 m2 ir2,
         In (m1, ir1) (Irreps.simplify A) /\
         In (m2, ir2) (Irreps.simplify B) /\
         In t (Irrep.mul ir1 ir2)) /\
    (tp_path_exists A B t = false <->
       forall m1 ir1 m2 ir2,
         In (m1, ir1) (Irreps.simplify A) ->
         In (m2, ir2) (Irreps.simplify B) ->
         ~ In t (Irrep.mul ir1 ir2)) /\
    tp_path_exists [] B t = false /\
    tp_path_exists A [] t = false.
Proof.
  intros A B t.
  assert (Hiff : tp_path_exists A B t = true <->
       exists m1 ir1 m2 ir2,
         In (m1, ir1) (Irreps.simplify A) /\
         In (m2, ir2) (Irreps.simplify B) /\
         In t (Irrep.mul ir1 ir2)).
  { rewrite tp_path_exists_iff. split.
    - intros ([m1 ir1] & [m2 ir2] & H1 & H2 & Hm). now exists m1, ir1, m2, ir2.
    - intros (m1 & ir1 & m2 & ir2 & H1 & H2 & Hm). now exists (m1, ir1), (m2, ir2). }
  split; [exact Hiff|]. split; [|split].
  - rewrite <- not_true_iff_false, Hiff. split.
    + intros Hno m1 ir1 m2 ir2 H1 H2 Hm. apply Hno. now exists m1, ir1, m2, ir2.
    + intros Hall (m1 & ir1 & m2 & ir2 & H1 & H2 & Hm). exact (Hall _ _ _ _ H1 H2 Hm).
  - reflexivity.
  - clear Hiff. unfold tp_path_exists. rewrite simplify_nil.
    induction (Irreps.simplify A) as [|c1 rest IH]; [reflexivity | exact IH].
Qed.

(** C9: exchanging the two representation arguments of [tp_path_exists]
    does not change its result. *)
Theorem C9_tp_path_exists_sym :
  forall (A B : Irreps.t) (t : Irrep.t),
    tp_path_exists A B t = tp_path_exists B A t.
Proof.
  intros A B t. apply eq_iff_eq_true. rewrite !tp_path_exists_iff.
  split; intros (c1 & c2 & H1 & H2 & Hm); exists c2, c1; repeat split; auto;
    now apply Irrep_mul_comm_In.
Qed.

(** ** The partition of the hidden representation *)

Import E3NN_NequIP.

Lemma filter_filter_absorb {A} (f g : A -> bool) (xs : list A) :
  (forall x, f x = true -> g x = true) ->
  filter f (filter g xs) = filter f xs.
Proof.
  intros Hfg. induction xs as [|x xs IH]; simpl; [reflexivity|].
  destruct (g x) eqn:Eg; simpl.
  - now rewrite IH.
  - destruct (f x) eqn:Ef; [apply Hfg in Ef; congruence | exact IH].
Qed.

(** A list is a rearrangement of its three classes when every element
    belongs to exactly one of them. *)
Lemma filter_three_way {A} (f g h : A -> bool) (xs : list A) :
  (forall x, (f x = true /\ g x = false /\ h x = false) \/
             (f x = false /\ g x = true /\ h x = false) \/
             (f x = false /\ g x = false /\ h x = true)) ->
  Permutation xs (filter f xs ++ filter g xs ++ filter h xs).
Proof.
  intros Hx. induction xs as [|x xs IH]; simpl; [constructor|].
  destruct (Hx x) as [(-> & -> & ->) | [(-> & -> & ->) | (-> & -> & ->)]]; simpl.
  - now constructor.
  - rewrite <- Permutation_middle. now constructor.
  - rewrite app_assoc, <- Permutation_middle, <- app_assoc. now constructor.
Qed.

Lemma layer_partitions (a : args) (irreps : Irreps.t) (L : Compose.t) :
  layer a irreps = Ok L ->
  Gate.irreps_scalars (Compose.second L) = irreps_scalars a irreps /\
  Gate.irreps_gated (Compose.second L) = irreps_gated a irreps /\
  E3NN_Interaction.irreps_in (Compose.first L) = irreps /\
  E3NN_Interaction.irreps_out (Compose.first L) = Gate.irreps_in (Compose.second L).
Proof.
  unfold layer. destruct (gate_ir _ _ _) as [ir|e]; simpl; [|discriminate].
  destruct (irreps_gates _ _) as [gates|e]; simpl; [|discriminate].
  intros E. inversion E; subst; simpl. auto.
Qed.

(** Every component of [irreps_hidden] is in exactly one of the scalars
    partition, the gated partition and the dropped components. *)
Lemma hidden_three_way (a : args) (irreps : Irreps.t) :
  Permutation (a_irreps_hidden a)
    (irreps_scalars a irreps ++ irreps_gated a irreps
       ++ filter (fun c => negb (tp_path_exists irreps (a_irreps_edge a) (snd c)))
                 (a_irreps_hidden a)).
Proof.
  unfold irreps_scalars, irreps_gated. apply filter_three_way.
  intros c.
  destruct (tp_path_exists irreps (a_irreps_edge a) (snd c));
    destruct (Irrep.l (snd c)); simpl; auto.
Qed.

(** C5: the scalars partition consists exactly of the degree-0 components of
    [irreps_hidden] that pass the path check from (irreps, irreps_edge), the
    gated partition exactly of the components of positive degree that pass
    it; every component of [irreps_hidden] lands in exactly one of scalars,
    gated and dropped; and the dropped components leave no trace: the layer
    that is built, or the exception that is raised, is the one obtained when
    they are not requested at all. *)
Theorem C5_hidden_partition :
  forall (a : args) (irreps : Irreps.t),
    let hidden := a_irreps_hidden a in
    let reachable := fun c : nat * Irrep.t =>
                       tp_path_exists irreps (a_irreps_edge a) (snd c) in
    (forall c, In c (irreps_scalars a irreps) <->
               In c hidden /\ Irrep.l (snd c) = 0 /\ reachable c = true) /\
    (forall c, In c (irreps_gated a irreps) <->
               In c hidden /\ 0 < Irrep.l (snd c) /\ reachable c = true) /\
    Permutation hidden
      (irreps_scalars a irreps ++ irreps_gated a irreps
         ++ filter (fun c => negb (reachable c)) hidden) /\
    layer a irreps = layer (with_hidden a (filter reachable hidden)) irreps /\
    (forall L, layer a irreps = Ok L ->
       Gate.irreps_out (Compose.second L)
       = irreps_scalars a irreps ++ irreps_gated a irreps).
Proof.
  intros a irreps hidden reachable. split; [|split; [|split; [|split]]].
  - intros c. unfold irreps_scalars.
    rewrite filter_In, andb_true_iff, Nat.eqb_eq. tauto.
  - intros c. unfold irreps_gated.
    rewrite filter_In, andb_true_iff, Nat.ltb_lt. tauto.
  - apply hidden_three_way.
  - unfold layer, irreps_scalars, irreps_gated, gate_ir. simpl.
    fold hidden.
    rewrite !(@filter_filter_absorb _ _ reachable hidden); [reflexivity| |].
    + intros c Hc. apply andb_true_iff in Hc. apply Hc.
    + intros c Hc. apply andb_true_iff in Hc. apply Hc.
  - intros L HL. apply layer_partitions in HL as (Hs & Hg & _).
    unfold Gate.irreps_out, Irreps.add. now rewrite Hs, Hg.
Qed.

(** ** The loop of the builder *)

(** Once [k] layers are built, a failure of the next layer is the outcome of
    every longer run of the loop. *)
Lemma loop_raise_at (a : args) (e : exn) :
  forall (k : nat) (start : Irreps.t) (built : list Compose.t) (irreps : Irreps.t),
    loop a k start = Ok (built, irreps) ->
    layer a irreps = Raise e ->
    forall n, k < n -> loop a n start = Raise e.
Proof.
  induction k as [|k IH]; intros start built irreps Hk Hl n Hn.
  - simpl in Hk. inversion Hk; subst.
    destruct n as [|n]; [lia|]. simpl. now rewrite Hl.
  - destruct n as [|n]; [lia|]. simpl in Hk |- *.
    destruct (layer a start) as [c|e0]; simpl in *; [|discriminate].
    destruct (loop a k _) as [[rest final]|e0] eqn:Ek; simpl in *; [|discriminate].
    inversion Hk; subst.
    erewrite IH; [reflexivity | exact Ek | exact Hl | lia].
Qed.

Lemma init_raise_at (a : args) (e : exn) (k : nat)
      (built : list Compose.t) (irreps : Irreps.t) :
  a_radial_neurons a <> [] ->
  a_irreps_in a <> [] ->
  (Z.of_nat k < a_num_convs a - 1)%Z ->
  loop a k (a_irreps_in a) = Ok (built, irreps) ->
  layer a irreps = Raise e ->
  __init__ a = Raise e.
Proof.
  intros Hr Hi Hk Hloop Hl. unfold __init__.
  destruct (a_radial_neurons a) as [|n0 ?]; [congruence|].
  destruct (a_irreps_in a) as [|c0 ?] eqn:Ein; [congruence|]. simpl.
  erewrite loop_raise_at; [reflexivity | exact Hloop | exact Hl | lia].
Qed.

(** For multiplicities that are all positive, the test [irreps.dim > 0] of
    line 84 is the test that the sequence has an entry. *)
Lemma dim_pos_iff_nonempty (x : Irreps.t) :
  Forall (fun c => 0 < fst c) x ->
  (0 < Irreps.dim x <-> x <> []).
Proof.
  intros Hpos. destruct x as [|[m ir] x]; simpl.
  - split; [lia | congruence].
  - inversion Hpos; subst. simpl in *. unfold Irrep.dim.
    split; [congruence | intros _; nia].
Qed.

Lemma layer_with_gate (a : args) (irreps : Irreps.t) (g : Irrep.t) :
  gate_ir a irreps (irreps_gated a irreps) = Ok (Some g) ->
  exists L, layer a irreps = Ok L /\
            Gate.irreps_gates (Compose.second L)
            = Irreps.simplify (map (fun c => (fst c, g)) (irreps_gated a irreps)).
Proof.
  intros Hg. unfold layer. rewrite Hg. simpl. eexists. split; reflexivity.
Qed.

(** C1: at a non-final layer reached by the builder, when the gated partition
    has positive dimension the label of the gates is 0e if a path from
    (irreps_node, irreps_edge) to 0e exists, else 0o if a path to 0o exists,
    and otherwise the layer, and with it the whole construction, raises the
    ValueError of line 90 that prints the layer input, the edge representation
    and the gated partition; when the gated partition is empty no label is
    looked for and the layer is built with no gates.  "Positive dimension"
    is the test of line 84; for a hidden representation whose multiplicities
    are positive it is the same as the gated partition having an entry. *)
Theorem C1_gate_parity :
  forall (a : args) (k : nat) (built : list Compose.t) (irreps : Irreps.t),
    a_radial_neurons a <> [] ->
    a_irreps_in a <> [] ->
    (Z.of_nat k < a_num_convs a - 1)%Z ->
    loop a k (a_irreps_in a) = Ok (built, irreps) ->
    let gated := irreps_gated a irreps in
    let node_path := tp_path_exists (a_irreps_node a) (a_irreps_edge a) in
    (0 < Irreps.dim gated -> node_path ir_0e = true ->
       gate_ir a irreps gated = Ok (Some ir_0e) /\
       exists L, layer a irreps = Ok L /\
                 Gate.irreps_gates (Compose.second L)
                 = Irreps.simplify (map (fun c => (fst c, ir_0e)) gated)) /\
    (0 < Irreps.dim gated -> node_path ir_0e = false -> node_path ir_0o = true ->
       gate_ir a irreps gated = Ok (Some ir_0o) /\
       exists L, layer a irreps = Ok L /\
                 Gate.irreps_gates (Compose.second L)
                 = Irreps.simplify (map (fun c => (fst c, ir_0o)) gated)) /\
    (0 < Irreps.dim gated -> node_path ir_0e = false -> node_path ir_0o = false ->
       gate_ir a irreps gated
       = Raise (ValueError_gates irreps (a_irreps_edge a) gated) /\
       layer a irreps = Raise (ValueError_gates irreps (a_irreps_edge a) gated) /\
       __init__ a = Raise (ValueError_gates irreps (a_irreps_edge a) gated)) /\
    (gated = [] ->
       gate_ir a irreps gated = Ok None /\
       exists L, layer a irreps = Ok L /\
                 Gate.irreps_gates (Compose.second L) = [] /\
                 Gate.irreps_gated (Compose.second L) = []) /\
    (Forall (fun c => 0 < fst c) (a_irreps_hidden a) ->
       (0 < Irreps.dim gated <-> gated <> [])).
Proof.
  intros a k built irreps Hr Hi Hk Hloop gated node_path.
  split; [|split; [|split; [|split]]].
  - intros Hdim H0e.
    assert (Hg : gate_ir a irreps gated = Ok (Some ir_0e)).
    { unfold gate_ir. apply Nat.ltb_lt in Hdim. rewrite Hdim.
      fold node_path. now rewrite H0e. }
    split; [exact Hg | now apply layer_with_gate].
  - intros Hdim H0e H0o.
    assert (Hg : gate_ir a irreps gated = Ok (Some ir_0o)).
    { unfold gate_ir. apply Nat.ltb_lt in Hdim. rewrite Hdim.
      fold node_path. now rewrite H0e, H0o. }
    split; [exact Hg | now apply layer_with_gate].
  - intros Hdim H0e H0o.
    assert (Hg : gate_ir a irreps gated
                 = Raise (ValueError_gates irreps (a_irreps_edge a) gated)).
    { unfold gate_ir. apply Nat.ltb_lt in Hdim. rewrite Hdim.
      fold node_path. now rewrite H0e, H0o. }
    assert (Hl : layer a irreps
                 = Raise (ValueError_gates irreps (a_irreps_edge a) gated)).
    { unfold layer. fold gated. now rewrite Hg. }
    split; [exact Hg | split; [exact Hl|]].
    eapply init_raise_at; eassumption.
  - intros Hnil.
    assert (Hg : gate_ir a irreps gated = Ok None).
    { unfold gate_ir. now rewrite Hnil. }
    split; [exact Hg|].
    unfold layer. fold gated. rewrite Hg. simpl. rewrite Hnil. simpl.
    eexists. split; [reflexivity|]. split; reflexivity.
  - intros Hpos. apply dim_pos_iff_nonempty.
    unfold gated, irreps_gated. rewrite Forall_forall in Hpos |- *.
    intros c Hc. apply filter_In in Hc. now apply Hpos.
Qed.

(** The default arguments reach their first layer, whose gated partition is
    16x1e and whose gates are 16x0e. *)
Lemma C1_gate_parity_witness :
  let a := default_args in
  let gated := irreps_gated a (a_irreps_in a) in
  let node_path := tp_path_exists (a_irreps_node a) (a_irreps_edge a) in
  (0 < Irreps.dim gated -> node_path ir_0e = true ->
     gate_ir a (a_irreps_in a) gated = Ok (Some ir_0e) /\
     exists L, layer a (a_irreps_in a) = Ok L /\
               Gate.irreps_gates (Compose.second L)
               = Irreps.simplify (map (fun c => (fst c, ir_0e)) gated)) /\
  (0 < Irreps.dim gated -> node_path ir_0e = false -> node_path ir_0o = true ->
     gate_ir a (a_irreps_in a) gated = Ok (Some ir_0o) /\
     exists L, layer a (a_irreps_in a) = Ok L /\
               Gate.irreps_gates (Compose.second L)
               = Irreps.simplify (map (fun c => (fst c, ir_0o)) gated)) /\
  (0 < Irreps.dim gated -> node_path ir_0e = false -> node_path ir_0o = false ->
     gate_ir a (a_irreps_in a) gated
     = Raise (ValueError_gates (a_irreps_in a) (a_irreps_edge a) gated) /\
     layer a (a_irreps_in a)
     = Raise (ValueError_gates (a_irreps_in a) (a_irreps_edge a) gated) /\
     __init__ a = Raise (ValueError_gates (a_irreps_in a) (a_irreps_edge a) gated)) /\
  (gated = [] ->
     gate_ir a (a_irreps_in a) gated = Ok None /\
     exists L, layer a (a_irreps_in a) = Ok L /\
               Gate.irreps_gates (Compose.second L) = [] /\
               Gate.irreps_gated (Compose.second L) = []) /\
  (Forall (fun c => 0 < fst c) (a_irreps_hidden a) ->
     (0 < Irreps.dim gated <-> gated <> [])).
Proof.
  apply (@C1_gate_parity default_args 0 [] (a_irreps_in default_args)).
  - simpl. discriminate.
  - simpl. discriminate.
  - simpl. lia.
  - reflexivity.
Defined.

(** ** Chaining of the layers *)

Lemma loop_length (a : args) :
  forall n start layers final,
    loop a n start = Ok (layers, final) -> length layers = n.
Proof.
  induction n as [|n IH]; simpl; intros start layers final E.
  - inversion E; reflexivity.
  - destruct (layer a start) as [c|e]; simpl in E; [|discriminate].
    destruct (loop a n _) as [[rest fin]|e] eqn:El; simpl in E; [|discriminate].
    inversion E; subst. simpl. f_equal. eapply IH; eassumption.
Qed.

Lemma loop_built_by_layer (a : args) :
  forall n start layers final,
    loop a n start = Ok (layers, final) ->
    Forall (fun c => layer a (conv_in c) = Ok c) layers.
Proof.
  induction n as [|n IH]; simpl; intros start layers final E.
  - inversion E; constructor.
  - destruct (layer a start) as [c|e] eqn:Ec; simpl in E; [|discriminate].
    destruct (loop a n _) as [[rest fin]|e] eqn:El; simpl in E; [|discriminate].
    inversion E; subst. constructor.
    + unfold conv_in. destruct (layer_partitions _ _ Ec) as (_ & _ & -> & _).
      exact Ec.
    + eapply IH; eassumption.
Qed.

Lemma last_cons_default {A} (x : A) (xs : list A) (d d' : A) :
  last (x :: xs) d = last (x :: xs) d'.
Proof.
  revert x. induction xs as [|y xs IH]; intros x; [reflexivity|].
  change (last (y :: xs) d = last (y :: xs) d'). apply IH.
Qed.

Lemma loop_chain (a : args) :
  forall n start layers final,
    loop a n start = Ok (layers, final) ->
    (forall c, nth_error layers 0 = Some c -> conv_in c = start) /\
    (forall k c c', nth_error layers k = Some c ->
                    nth_error layers (S k) = Some c' ->
                    gate_out c = conv_in c') /\
    final = last (map gate_out layers) start.
Proof.
  induction n as [|n IH]; simpl; intros start layers final E.
  - inversion E; subst. repeat split; intros; try discriminate;
      destruct k; discriminate.
  - destruct (layer a start) as [c0|e] eqn:Ec; simpl in E; [|discriminate].
    destruct (loop a n _) as [[rest fin]|e] eqn:El; simpl in E; [|discriminate].
    inversion E; subst. destruct (IH _ _ _ El) as (Hhead & Hchain & Hlast).
    destruct (layer_partitions _ _ Ec) as (_ & _ & Hin & _).
    split; [|split].
    + intros c Hc. simpl in Hc. injection Hc as <-. exact Hin.
    + intros k c c' Hc Hc'. destruct k as [|k]; simpl in Hc, Hc'.
      * injection Hc as <-. symmetry. now apply Hhead.
      * eapply Hchain; eassumption.
    + rewrite Hlast. clear. destruct rest as [|c1 rest]; [reflexivity|].
      change (last (map gate_out (c0 :: c1 :: rest)) start)
        with (last (map gate_out (c1 :: rest)) start).
      apply last_cons_default.
Qed.

Lemma init_inv (a : args) (m : E3NN_NequIP.t) :
  __init__ a = Ok m ->
  exists final,
    loop a (Z.to_nat (a_num_convs a - 1)) (a_irreps_in a)
    = Ok (interactions m, final) /\
    E3NN_Interaction.irreps_in (out m) = final /\
    E3NN_NequIP.irreps_in m = a_irreps_in a /\
    E3NN_NequIP.irreps_hidden m = a_irreps_hidden a.
Proof.
  unfold __init__.
  destruct (a_radial_neurons a) as [|n0 ?]; simpl; [discriminate|].
  destruct (a_irreps_in a) as [|c0 ?]; simpl; [discriminate|].
  destruct (loop a _ _) as [[layers final]|e]; simpl; [|discriminate].
  intros E. inversion E; subst; simpl. exists final. auto.
Qed.

(** C2: in a model built by [__init__], the interaction of the first
    composed layer is built on the model's [irreps_in]; for every two
    consecutive composed layers the output representation of the gate of the
    earlier one is the [irreps_in] the interaction of the later one was built
    with; and the [irreps_in] of the final interaction is the output
    representation of the last gate, or the model's [irreps_in] when there is
    no composed layer. *)
Theorem C2_layer_chaining :
  forall (a : args) (m : E3NN_NequIP.t),
    __init__ a = Ok m ->
    length (interactions m) = Z.to_nat (a_num_convs a - 1) /\
    (forall c, nth_error (interactions m) 0 = Some c ->
       E3NN_Interaction.irreps_in (Compose.first c) = E3NN_NequIP.irreps_in m) /\
    (forall k c c',
       nth_error (interactions m) k = Some c ->
       nth_error (interactions m) (S k) = Some c' ->
       Gate.irreps_out (Compose.second c)
       = E3NN_Interaction.irreps_in (Compose.first c')) /\
    E3NN_Interaction.irreps_in (out m)
    = last (map (fun c => Gate.irreps_out (Compose.second c)) (interactions m))
           (E3NN_NequIP.irreps_in m) /\
    (interactions m = [] ->
       E3NN_Interaction.irreps_in (out m) = E3NN_NequIP.irreps_in m).
Proof.
  intros a m Hm. destruct (init_inv _ Hm) as (final & Hloop & Hout & Hin & _).
  destruct (loop_chain _ _ _ Hloop) as (Hhead & Hchain & Hlast).
  split; [eapply loop_length; eassumption|].
  split; [|split; [|split]].
  - intros c Hc. rewrite Hin. now apply Hhead.
  - exact Hchain.
  - rewrite Hout, Hin. exact Hlast.
  - intros Hnil. rewrite Hout, Hin, Hlast, Hnil. reflexivity.
Qed.

(** The model built from the default arguments has two composed layers whose
    representations chain. *)
Lemma C2_layer_chaining_witness :
  exists m : E3NN_NequIP.t,
    __init__ default_args = Ok m /\
    length (interactions m) = 2 /\
    (forall c, nth_error (interactions m) 0 = Some c ->
       E3NN_Interaction.irreps_in (Compose.first c) = E3NN_NequIP.irreps_in m) /\
    (forall k c c',
       nth_error (interactions m) k = Some c ->
       nth_error (interactions m) (S k) = Some c' ->
       Gate.irreps_out (Compose.second c)
       = E3NN_Interaction.irreps_in (Compose.first c')) /\
    E3NN_Interaction.irreps_in (out m)
    = last (map (fun c => Gate.irreps_out (Compose.second c)) (interactions m))
           (E3NN_NequIP.irreps_in m) /\
    (interactions m = [] ->
       E3NN_Interaction.irreps_in (out m) = E3NN_NequIP.irreps_in m).
Proof.
  eexists. split; [vm_compute; reflexivity|].
  apply (@C2_layer_chaining default_args). vm_compute. reflexivity.
Defined.

(** ** The gates of a layer *)

Lemma Irrep_eqb_refl (g : Irrep.t) : Irrep.eqb g g = true.
Proof. now apply Irrep_eqb_eq. Qed.

Lemma fold_simplify_const_from (g : Irrep.t) (xs : Irreps.t) :
  forall m,
    fold_left Irreps.simplify_step (map (fun c => (fst c, g)) xs) [(m, g)]
    = [(m + num_irreps xs, g)].
Proof.
  unfold num_irreps.
  induction xs as [|[m1 ir1] xs IH]; intros m; simpl.
  - now rewrite Nat.add_0_r.
  - rewrite Irrep_eqb_refl, IH. now rewrite Nat.add_assoc.
Qed.

(** Simplifying entries that all carry the label [g] leaves one entry with
    the total multiplicity, or nothing when that total is zero. *)
Lemma simplify_const (g : Irrep.t) (xs : Irreps.t) :
  Irreps.simplify (map (fun c => (fst c, g)) xs)
  = if num_irreps xs =? 0 then [] else [(num_irreps xs, g)].
Proof.
  unfold Irreps.simplify, num_irreps.
  induction xs as [|[m1 ir1] xs IH]; simpl; [reflexivity|].
  destruct m1 as [|m1]; simpl.
  - exact IH.
  - now rewrite fold_simplify_const_from.
Qed.

Lemma dim_pos_num_irreps (x : Irreps.t) :
  0 < Irreps.dim x -> 0 < num_irreps x.
Proof.
  unfold num_irreps. induction x as [|[m ir] x IH]; simpl; [lia|].
  intros Hd. destruct m as [|m]; [simpl in Hd; apply IH in Hd |]; lia.
Qed.

Lemma gate_ir_label (a : args) (irreps gated : Irreps.t) (o : option Irrep.t) :
  gate_ir a irreps gated = Ok o ->
  0 < Irreps.dim gated ->
  o = Some ir_0e \/ o = Some ir_0o.
Proof.
  unfold gate_ir. intros E Hd. apply Nat.ltb_lt in Hd. rewrite Hd in E.
  destruct (tp_path_exists _ _ ir_0e); [inversion E; auto|].
  destruct (tp_path_exists _ _ ir_0o); [inversion E; auto | discriminate].
Qed.

(** With a gated partition of positive dimension, the gates are one block of
    scalars, 0e or 0o, with one gate per gated irrep. *)
Lemma layer_gates (a : args) (irreps : Irreps.t) (L : Compose.t) :
  layer a irreps = Ok L ->
  0 < Irreps.dim (irreps_gated a irreps) ->
  exists g, (g = ir_0e \/ g = ir_0o) /\
            Gate.irreps_gates (Compose.second L)
            = [(num_irreps (irreps_gated a irreps), g)].
Proof.
  intros HL Hd. unfold layer in HL.
  destruct (gate_ir _ _ _) as [o|e] eqn:Eg; simpl in HL; [|discriminate].
  destruct (gate_ir_label _ _ _ Eg Hd) as [-> | ->]; simpl in HL;
    inversion HL; subst; simpl;
    [exists ir_0e | exists ir_0o]; (split; [auto|]);
    rewrite simplify_const;
    apply dim_pos_num_irreps in Hd;
    destruct (Nat.eqb_spec (num_irreps (irreps_gated a irreps)) 0);
    (lia || reflexivity).
Qed.

Lemma filter_all {A} (f : A -> bool) (xs : list A) :
  (forall x, In x xs -> f x = true) -> filter (fun x => negb (f x)) xs = [].
Proof.
  induction xs as [|x xs IH]; intros Hall; simpl; [reflexivity|].
  rewrite (Hall x (or_introl eq_refl)). simpl. apply IH.
  intros y Hy. apply Hall. now right.
Qed.

(** C6, as the code has it: the interaction of every composed layer is built
    with [irreps_out] equal to the required-input representation of the gate
    of that layer, which is the concatenation of the layer's scalars, gates
    and gated partitions.  That value is different from [irreps_hidden]
    whenever the gated partition has positive dimension and no component of
    [irreps_hidden] is dropped; it is not different from [irreps_hidden] in
    every case. *)
Theorem C6_interaction_irreps_out :
  forall (a : args) (m : E3NN_NequIP.t) (c : Compose.t),
    __init__ a = Ok m ->
    In c (interactions m) ->
    let gate := Compose.second c in
    let conv := Compose.first c in
    E3NN_Interaction.irreps_out conv = Gate.irreps_in gate /\
    Gate.irreps_in gate
    = Gate.irreps_scalars gate ++ Gate.irreps_gates gate ++ Gate.irreps_gated gate /\
    Gate.irreps_scalars gate = irreps_scalars a (E3NN_Interaction.irreps_in conv) /\
    Gate.irreps_gated gate = irreps_gated a (E3NN_Interaction.irreps_in conv) /\
    (0 < Irreps.dim (Gate.irreps_gated gate) ->
     (forall h, In h (a_irreps_hidden a) ->
        tp_path_exists (E3NN_Interaction.irreps_in conv) (a_irreps_edge a) (snd h)
        = true) ->
     E3NN_Interaction.irreps_out conv <> a_irreps_hidden a).
Proof.
  intros a m c Hm Hc gate conv.
  destruct (init_inv _ Hm) as (final & Hloop & _).
  pose proof (loop_built_by_layer _ _ _ Hloop) as Hall.
  rewrite Forall_forall in Hall. specialize (Hall c Hc).
  unfold conv_in in Hall. fold conv in Hall.
  destruct (layer_partitions _ _ Hall) as (Hs & Hg & _ & Hout).
  fold gate in Hs, Hg, Hout. fold conv in Hout.
  split; [exact Hout|]. split; [|split; [exact Hs | split; [exact Hg|]]].
  - unfold Gate.irreps_in, Irreps.add. now rewrite <- app_assoc.
  - intros Hd Hreach Heq.
    rewrite Hg in Hd.
    destruct (layer_gates _ _ Hall Hd) as (g & _ & Hgates). fold gate in Hgates.
    pose proof (hidden_three_way a (E3NN_Interaction.irreps_in conv)) as Hperm.
    rewrite (filter_all (fun c => tp_path_exists _ _ (snd c))) in Hperm
      by exact Hreach.
    apply Permutation_length in Hperm.
    rewrite Hout in Heq. unfold Gate.irreps_in, Irreps.add in Heq.
    rewrite Hs, Hg, Hgates in Heq. rewrite <- Heq in Hperm at 1.
    rewrite !length_app in Hperm. simpl in Hperm. lia.
Qed.

(** The first layer of the default model: its interaction is built with
    128x0e + 16x0e + 16x1e, the required input of its gate. *)
Lemma C6_interaction_irreps_out_witness :
  exists (m : E3NN_NequIP.t) (c : Compose.t),
    __init__ default_args = Ok m /\
    nth_error (interactions m) 0 = Some c /\
    E3NN_Interaction.irreps_out (Compose.first c)
    = [(128, Irrep.mk 0 Even); (16, Irrep.mk 0 Even); (16, Irrep.mk 1 Even)] /\
    E3NN_Interaction.irreps_out (Compose.first c) = Gate.irreps_in (Compose.second c) /\
    Gate.irreps_in (Compose.second c)
    = Gate.irreps_scalars (Compose.second c) ++ Gate.irreps_gates (Compose.second c)
        ++ Gate.irreps_gated (Compose.second c) /\
    Gate.irreps_scalars (Compose.second c)
    = irreps_scalars default_args (E3NN_Interaction.irreps_in (Compose.first c)) /\
    Gate.irreps_gated (Compose.second c)
    = irreps_gated default_args (E3NN_Interaction.irreps_in (Compose.first c)) /\
    (0 < Irreps.dim (Gate.irreps_gated (Compose.second c)) ->
     (forall h, In h (a_irreps_hidden default_args) ->
        tp_path_exists (E3NN_Interaction.irreps_in (Compose.first c))
                       (a_irreps_edge default_args) (snd h) = true) ->
     E3NN_Interaction.irreps_out (Compose.first c) <> a_irreps_hidden default_args).
Proof.
  eexists. eexists.
  split; [vm_compute; reflexivity|].
  split; [reflexivity|].
  split; [reflexivity|].
  eapply (@C6_interaction_irreps_out default_args).
  - vm_compute. reflexivity.
  - simpl. left. reflexivity.
Defined.

(** With [irreps_hidden = 128x0e] and the other arguments at their defaults,
    the scalars partition is 128x0e and the gated and gates partitions are
    empty, so the interaction of each composed layer is built with
    [irreps_out = 128x0e], which is [irreps_hidden] itself. *)
Lemma C6_counterexample :
  exists (m : E3NN_NequIP.t) (c : Compose.t),
    __init__ (with_hidden default_args [(128, Irrep.mk 0 Even)]) = Ok m /\
    In c (interactions m) /\
    E3NN_Interaction.irreps_out (Compose.first c)
    = a_irreps_hidden (with_hidden default_args [(128, Irrep.mk 0 Even)]).
Proof.
  eexists. eexists.
  split; [vm_compute; reflexivity|].
  split; [left; reflexivity | reflexivity].
Qed.

(** ** Worked examples *)

Example simplify_merges_neighbours :
  Irreps.simplify [(1, Irrep.mk 1 Even); (1, Irrep.mk 1 Even); (1, Irrep.mk 0 Even)]
  = [(2, Irrep.mk 1 Even); (1, Irrep.mk 0 Even)].
Proof. reflexivity. Qed.

Example simplify_drops_zero :
  Irreps.simplify [(0, Irrep.mk 1 Even); (2, Irrep.mk 0 Even)] = [(2, Irrep.mk 0 Even)].
Proof. reflexivity. Qed.

Example coupling_1o_2e :
  Irrep.mul (Irrep.mk 1 Odd) (Irrep.mk 2 Even)
  = [Irrep.mk 1 Odd; Irrep.mk 2 Odd; Irrep.mk 3 Odd].
Proof. reflexivity. Qed.

(** Section 8, property 3: from 0e and 0e the label 0e is reachable and 1e
    is not. *)
Example tp_degree0_case :
  tp_path_exists [(1, ir_0e)] [(1, ir_0e)] ir_0e = true /\
  tp_path_exists [(1, ir_0e)] [(1, ir_0e)] (Irrep.mk 1 Even) = false.
Proof. split; reflexivity. Qed.

(** The default model: two composed layers, each interaction producing
    128x0e + 16x0e + 16x1e, each gate returning 128x0e + 16x1e. *)
Example default_model_layers :
  exists m, __init__ default_args = Ok m /\
    map (fun c => E3NN_Interaction.irreps_out (Compose.first c)) (interactions m)
    = [[(128, Irrep.mk 0 Even); (16, Irrep.mk 0 Even); (16, Irrep.mk 1 Even)];
       [(128, Irrep.mk 0 Even); (16, Irrep.mk 0 Even); (16, Irrep.mk 1 Even)]] /\
    map gate_out (interactions m)
    = [[(128, Irrep.mk 0 Even); (16, Irrep.mk 1 Even)];
       [(128, Irrep.mk 0 Even); (16, Irrep.mk 1 Even)]] /\
    E3NN_Interaction.irreps_in (out m) = [(128, Irrep.mk 0 Even); (16, Irrep.mk 1 Even)] /\
    node_embedding m = (1, 64) /\ num_edge_basis m = 16.
Proof. eexists. split; [vm_compute; reflexivity|]. repeat split. Qed.

(** Section 8, property 4: construction fails.  The exception carries the
    layer input 64x0e, the edge representation and the gated partition 8x2e. *)
Example no_gate_construction_fails :
  __init__ no_gate_args
  = Raise (ValueError_gates [(64, Irrep.mk 0 Even)]
                            [(1, Irrep.mk 0 Even); (1, Irrep.mk 2 Even)]
                            [(8, Irrep.mk 2 Even)]).
Proof. reflexivity. Qed.

(** [num_convs = 1]: no composed layer, the output interaction is built on
    the input representation. *)
Example single_conv_model :
  exists m, __init__ (mk_args [(64, ir_0e)] [(128, ir_0e)] [(4, ir_0e)] [(1, ir_0e)]
                              [(1, ir_0e)] 1%Z [16; 64] 1 (315 # 100)%Q (12 # 1)%Q)
            = Ok m /\
            interactions m = [] /\
            E3NN_Interaction.irreps_in (out m) = [(64, ir_0e)].
Proof. eexists. split; [vm_compute; reflexivity|]. split; reflexivity. Qed.

(** An empty input representation: [self.irreps_in[0]] raises. *)
Example empty_irreps_in :
  __init__ (with_hidden (mk_args [] [] [(4, ir_0e)] [(1, ir_0e)] [(1, ir_0e)]
                                 3%Z [16; 64] 1 (315 # 100)%Q (12 # 1)%Q) [])
  = Raise IndexError.
Proof. reflexivity. Qed.

(** ** [forward] and the local [z] *)

Lemma forward_layers_bound {Tensor} `{Kernels Tensor} (layers : list Compose.t) :
  forall (h z edge_index edge_sh h_bnd : Tensor),
    forward_layers layers h (Some z) edge_index edge_sh h_bnd
    = apply_layers layers h z edge_index edge_sh h_bnd.
Proof.
  induction layers as [|c rest IH]; intros h z ei sh hb; simpl; [reflexivity|].
  destruct (Compose_forward c h z ei sh hb) as [h'|e]; simpl; [apply IH | reflexivity].
Qed.

(** Case analysis on the next call of a kernel in a chain of [bind]s: an
    exception ends the chain. *)
Ltac kernel_step :=
  match goal with
  | |- context [bind ?c _] =>
      lazymatch c with
      | Embedding_forward _ _ => idtac
      | radial_basis _ _ _ => idtac
      | spherical_harmonics _ _ => idtac
      end;
      let e := fresh "e" in
      destruct c as [?|e]; cbn [bind]; [|try reflexivity; try (eexists; reflexivity)]
  end.

(** C3, on the code: without a ['z'] entry the weighting handed to every
    layer and to the output interaction is the column of ones
    [x.new_ones((x.shape[0], 1))]; with a ['z'] entry the local [z] is never
    assigned, the entry is not read, and as soon as the embedding, the radial
    basis and the spherical harmonics have been computed the first use of [z]
    raises UnboundLocalError; in no case does [forward] return a value
    then. *)
Theorem C3_forward_weighting :
  forall (Tensor : Type) (K : Kernels Tensor) (self : E3NN_NequIP.t)
         (x edge_index edge_vec : Tensor),
    (let ones := new_ones x (shape0 x) 1 in
     forward self (mk_Data x edge_index edge_vec None)
     = (h_atm <- Embedding_forward (node_embedding self) x ;;
        h_bnd <- radial_basis edge_vec (max_radius self) (num_edge_basis self) ;;
        edge_sh <- spherical_harmonics (E3NN_NequIP.irreps_edge self) edge_vec ;;
        h_atm <- apply_layers (interactions self) h_atm ones edge_index edge_sh h_bnd ;;
        Interaction_forward (out self) h_atm ones edge_index edge_sh h_bnd)) /\
    (forall w : Tensor,
       forward self (mk_Data x edge_index edge_vec (Some w))
       = (h_atm <- Embedding_forward (node_embedding self) x ;;
          h_bnd <- radial_basis edge_vec (max_radius self) (num_edge_basis self) ;;
          edge_sh <- spherical_harmonics (E3NN_NequIP.irreps_edge self) edge_vec ;;
          Raise UnboundLocalError)) /\
    (forall w : Tensor,
       exists e : exn, forward self (mk_Data x edge_index edge_vec (Some w)) = Raise e).
Proof.
  intros Tensor K self x ei ev.
  assert (Hz : forall w : Tensor,
             forward self (mk_Data x ei ev (Some w))
             = (h_atm <- Embedding_forward (node_embedding self) x ;;
                h_bnd <- radial_basis ev (max_radius self) (num_edge_basis self) ;;
                edge_sh <- spherical_harmonics (E3NN_NequIP.irreps_edge self) ev ;;
                Raise UnboundLocalError)).
  { intros w. unfold forward. simpl. repeat kernel_step.
    destruct (interactions self); reflexivity. }
  split; [|split; [exact Hz|]].
  - intros ones. unfold forward. simpl. fold ones. repeat kernel_step.
    now rewrite forward_layers_bound.
  - intros w. rewrite Hz. repeat kernel_step; eexists; reflexivity.
Qed.

(** ** Lists of rows *)

Lemma length_zip_with {A B C} (f : A -> B -> C) (xs : list A) (ys : list B) :
  length (zip_with f xs ys) = Nat.min (length xs) (length ys).
Proof.
  revert ys. induction xs as [|a xs IH]; intros [|b ys]; simpl; auto.
Qed.

Lemma nth_error_zip_with {A B C} (f : A -> B -> C) (xs : list A) (ys : list B) :
  forall k a b,
    nth_error xs k = Some a -> nth_error ys k = Some b ->
    nth_error (zip_with f xs ys) k = Some (f a b).
Proof.
  revert ys. induction xs as [|a0 xs IH]; intros [|b0 ys] [|k] a b Ha Hb;
    simpl in *; try discriminate.
  - congruence.
  - eapply IH; eassumption.
Qed.

Lemma Forall_zip_with {A B C} (f : A -> B -> C) (P : A -> Prop) (Q : B -> Prop)
      (R : C -> Prop) (xs : list A) (ys : list B) :
  (forall a b, P a -> Q b -> R (f a b)) ->
  Forall P xs -> Forall Q ys -> Forall R (zip_with f xs ys).
Proof.
  intros Hf Hx. revert ys. induction Hx as [|a xs Ha Hxs IH]; intros ys Hy.
  - constructor.
  - destruct Hy as [|b ys Hb Hys]; simpl; constructor; auto.
Qed.

Lemma length_add_row {F} `{Scalar F} (r s : list F) (w : nat) :
  length r = w -> length s = w -> length (add_row r s) = w.
Proof. intros Hr Hs. unfold add_row. rewrite length_zip_with. lia. Qed.

Lemma length_set_nth {A} (xs : list A) (k : nat) (v : A) :
  length (set_nth xs k v) = length xs.
Proof.
  revert k. induction xs as [|a xs IH]; intros [|k]; simpl; auto.
Qed.

Lemma nth_error_set_nth {A} (xs : list A) (k n : nat) (v : A) :
  k < length xs ->
  nth_error (set_nth xs k v) n = if k =? n then Some v else nth_error xs n.
Proof.
  revert k n. induction xs as [|a xs IH]; intros [|k] [|n] Hk; simpl in *;
    try lia; try reflexivity.
  apply IH. lia.
Qed.

(** Picking rows with indices that are all in range succeeds. *)
Lemma index_rows_ok {F} (x : Tensor2 F) (i : list nat) :
  Forall (fun k => k < nrows x) i ->
  exists rs,
    index_rows x i = Ok (mk_T (ncols x) rs) /\
    length rs = length i /\
    (forall e k, nth_error i e = Some k -> nth_error rs e = nth_error (rows x) k) /\
    (forall P : list F -> Prop, Forall P (rows x) -> Forall P rs).
Proof.
  unfold index_rows, nrows. induction 1 as [|k i Hk Hi IH].
  - exists []. simpl. repeat split; auto. intros [|e] k; discriminate.
  - destruct IH as (rs & E & Hlen & Hnth & HP).
    destruct (nth_error (rows x) k) as [r|] eqn:Er;
      [|apply nth_error_None in Er; lia].
    exists (r :: rs). simpl. rewrite Er. simpl.
    destruct (mapM _ i) as [rs'|e]; simpl in E |- *; [|discriminate].
    inversion E; subst. repeat split; simpl; auto.
    + intros [|e] k' Hk'; simpl in *; [congruence | now apply Hnth].
    + intros P HPx. constructor; [|now apply HP].
      rewrite Forall_forall in HPx. apply HPx. eapply nth_error_In; eassumption.
Qed.

(** ** [scatter] against the per-node sum *)

Lemma rows_into_Forall {F} (P : list F -> Prop) (n : nat) :
  forall (index : list nat) (src : list (list F)),
    Forall P src -> Forall P (rows_into n index src).
Proof.
  induction index as [|k index IH]; intros [|r src] Hs; simpl; try constructor.
  inversion Hs; subst. destruct (k =? n); [constructor|]; auto.
Qed.

Lemma length_fold_add_row {F} `{Scalar F} (w : nat) (rs : list (list F)) :
  Forall (fun r => length r = w) rs ->
  forall o, length o = w -> length (fold_left add_row rs o) = w.
Proof.
  induction 1 as [|r rs Hr Hrs IH]; intros o Ho; simpl; [exact Ho|].
  apply IH. now apply length_add_row.
Qed.

Lemma scatter_add_spec {F} `{Scalar F} :
  forall (index : list nat) (src out : list (list F)),
    Forall (fun k => k < length out) index ->
    exists rs,
      scatter_add_ out index src = Ok rs /\
      length rs = length out /\
      (forall n, nth_error rs n
                 = option_map (fun o => fold_left add_row (rows_into n index src) o)
                              (nth_error out n)).
Proof.
  induction index as [|k index IH]; intros src out Hidx.
  - exists out. simpl. repeat split. intros n. now destruct (nth_error out n).
  - destruct src as [|r src].
    + exists out. simpl. repeat split. intros n. now destruct (nth_error out n).
    + inversion Hidx as [|? ? Hk Hrest]; subst. simpl.
      destruct (nth_error out k) as [o|] eqn:Eo;
        [|apply nth_error_None in Eo; lia].
      destruct (IH src (set_nth out k (add_row o r))) as (rs & E & Hlen & Hnth).
      { now rewrite length_set_nth. }
      exists rs. split; [exact E|]. split; [now rewrite Hlen, length_set_nth|].
      intros n. rewrite Hnth, nth_error_set_nth by exact Hk.
      destruct (Nat.eqb_spec k n) as [->|Hne]; simpl.
      * now rewrite Eo.
      * reflexivity.
Qed.

(** [scatter] with indices in range returns, at every node, the sum of the
    rows sent to it. *)
Lemma scatter_ok {F} `{Scalar F} (src : Tensor2 F) (index : list nat) (N : nat) :
  length index = nrows src ->
  Forall (fun k => k < N) index ->
  exists rs,
    scatter src index N = Ok (mk_T (ncols src) rs) /\
    length rs = N /\
    (forall n, n < N ->
       nth_error rs n = Some (aggregate_at (ncols src) n index (rows src))).
Proof.
  intros Hlen Hidx. unfold scatter. rewrite Hlen, Nat.eqb_refl.
  destruct (@scatter_add_spec F _ index (rows src)
              (repeat (repeat f_zero (ncols src)) N)) as (rs & E & Hl & Hnth).
  { now rewrite repeat_length. }
  exists rs. rewrite E. simpl. split; [reflexivity|].
  rewrite repeat_length in Hl. split; [exact Hl|].
  intros n Hn. rewrite Hnth.
  rewrite (nth_error_repeat (repeat f_zero (ncols src)) Hn). reflexivity.
Qed.

(** ** The two processors *)

Lemma iadd_same_shape {F} `{Scalar F} (out b : Tensor2 F) :
  nrows b = nrows out -> ncols b = ncols out ->
  iadd out b = Ok (mk_T (ncols out) (zip_with add_row (rows out) (rows b))).
Proof.
  intros Hr Hc. unfold iadd, broadcast_to.
  rewrite Hr, Hc, !Nat.eqb_refl. reflexivity.
Qed.

Lemma EdgeProcessor_forward_ok {F} `{Scalar F} (s : Sequential F)
      (x_i x_j edge_attr : Tensor2 F) :
  respects_widths s ->
  hd 0 (hs s) = ncols x_i + ncols x_j + ncols edge_attr ->
  last (hs s) 0 = ncols edge_attr ->
  nrows x_i = nrows edge_attr -> nrows x_j = nrows edge_attr ->
  well_shaped x_i -> well_shaped x_j -> well_shaped edge_attr ->
  exists rs,
    EdgeProcessor.forward (EdgeProcessor.mk s) x_i x_j edge_attr
    = Ok (mk_T (ncols edge_attr) rs) /\
    length rs = nrows edge_attr /\
    Forall (fun r => length r = ncols edge_attr) rs /\
    (forall e xi xj ea,
       nth_error (rows x_i) e = Some xi ->
       nth_error (rows x_j) e = Some xj ->
       nth_error (rows edge_attr) e = Some ea ->
       nth_error rs e = Some (edge_row_spec (net s) xi xj ea)).
Proof.
  intros Hnet Hhd Hlast Hri Hrj Hwi Hwj Hwe.
  unfold EdgeProcessor.forward, cat3, cat2. simpl.
  rewrite Hri, Hrj, Nat.eqb_refl. simpl.
  unfold nrows at 1. simpl. rewrite length_zip_with.
  fold (nrows x_i). fold (nrows x_j). rewrite Hri, Hrj, Nat.min_id, Nat.eqb_refl.
  simpl. unfold Sequential_forward. simpl. rewrite Hhd, Nat.eqb_refl. simpl.
  rewrite iadd_same_shape; simpl.
  2:{ unfold nrows. simpl. rewrite length_map, !length_zip_with.
      fold (nrows x_i) (nrows x_j) (nrows edge_attr). rewrite Hri, Hrj. lia. }
  2:{ now rewrite Hlast. }
  rewrite Hlast. eexists. split; [reflexivity|]. split; [|split].
  - rewrite length_zip_with, length_map, !length_zip_with.
    fold (nrows x_i) (nrows x_j) (nrows edge_attr). rewrite Hri, Hrj. lia.
  - apply Forall_zip_with
      with (P := fun r => length r = ncols edge_attr)
           (Q := fun r => length r = ncols edge_attr); [| |exact Hwe].
    + intros a b Ha Hb. now apply length_add_row.
    + apply Forall_map.
      apply Forall_zip_with
        with (P := fun r => length r = ncols x_i + ncols x_j)
             (Q := fun r => length r = ncols edge_attr); [| |exact Hwe].
      * intros a b Ha Hb. rewrite <- Hlast. apply Hnet.
        rewrite length_app, Ha, Hb. now rewrite Hhd.
      * apply Forall_zip_with
          with (P := fun r => length r = ncols x_i)
               (Q := fun r => length r = ncols x_j); [|exact Hwi|exact Hwj].
        intros a b Ha Hb. rewrite length_app. congruence.
  - intros e xi xj ea Hxi Hxj Hea.
    unfold edge_row_spec. rewrite app_assoc.
    apply nth_error_zip_with; [|exact Hea].
    apply map_nth_error.
    apply nth_error_zip_with; [|exact Hea].
    now apply nth_error_zip_with.
Qed.

Lemma NodeProcessor_forward_ok {F} `{Scalar F} (s : Sequential F)
      (x : Tensor2 F) (i j : list nat) (edge_attr : Tensor2 F) :
  respects_widths s ->
  hd 0 (hs s) = ncols x + ncols edge_attr ->
  last (hs s) 0 = ncols x ->
  length i = nrows edge_attr ->
  Forall (fun k => k < nrows x) i ->
  well_shaped x -> well_shaped edge_attr ->
  exists rs,
    NodeProcessor.forward (NodeProcessor.mk s) x (i, j) edge_attr
    = Ok (mk_T (ncols x) rs) /\
    length rs = nrows x /\
    Forall (fun r => length r = ncols x) rs /\
    (forall n xn,
       nth_error (rows x) n = Some xn ->
       nth_error rs n
       = Some (node_row_spec (net s) xn
                 (aggregate_at (ncols edge_attr) n i (rows edge_attr)))).
Proof.
  intros Hnet Hhd Hlast Hlen Hidx Hwx Hwe.
  unfold NodeProcessor.forward.
  destruct (scatter_ok edge_attr Hlen Hidx) as (agg & Esc & Hal & Hagg).
  rewrite Esc. simpl. unfold cat2. unfold nrows at 2. simpl.
  fold (nrows x) in Hal |- *. rewrite Hal, Nat.eqb_refl. simpl.
  unfold Sequential_forward. simpl. rewrite Hhd, Nat.eqb_refl. simpl.
  assert (Hwagg : Forall (fun r => length r = ncols edge_attr) agg).
  { apply Forall_forall. intros r Hr.
    apply In_nth_error in Hr as (n & Hn).
    assert (Hlt : n < nrows x).
    { rewrite <- Hal. apply nth_error_Some. congruence. }
    rewrite (Hagg n Hlt) in Hn. injection Hn as <-.
    unfold aggregate_at. apply length_fold_add_row.
    - now apply rows_into_Forall.
    - apply repeat_length. }
  rewrite iadd_same_shape; simpl.
  2:{ unfold nrows. simpl. rewrite length_map, length_zip_with.
      fold (nrows x). rewrite Hal. lia. }
  2:{ now rewrite Hlast. }
  rewrite Hlast. eexists. split; [reflexivity|]. split; [|split].
  - rewrite length_zip_with, length_map, length_zip_with.
    fold (nrows x). rewrite Hal. lia.
  - apply Forall_zip_with
      with (P := fun r => length r = ncols x)
           (Q := fun r => length r = ncols x); [| |exact Hwx].
    + intros a b Ha Hb. now apply length_add_row.
    + apply Forall_map.
      apply Forall_zip_with
        with (P := fun r => length r = ncols x)
             (Q := fun r => length r = ncols edge_attr); [|exact Hwx|exact Hwagg].
      intros a b Ha Hb. rewrite <- Hlast. apply Hnet.
      rewrite length_app, Ha, Hb. now rewrite Hhd.
  - intros n xn Hxn. unfold node_row_spec.
    apply nth_error_zip_with; [|exact Hxn].
    apply map_nth_error.
    apply nth_error_zip_with; [exact Hxn|].
    apply Hagg. unfold nrows. apply nth_error_Some. congruence.
Qed.

(** ** [MeshGraphNetsConv.forward] *)

(** C10: on node features [x] of width [node_dim], edge features [edge_attr]
    of width [edge_dim] and an edge index whose two rows have one in-range
    entry per edge, [forward] returns.  Row [e] of the returned edge features
    is the edge network applied to (x[i[e]], x[j[e]], edge_attr[e]) plus
    edge_attr[e]; row [n] of the returned node features is the node network
    applied to x[n] followed by the sum of the returned edge rows whose first
    index is [n], plus x[n]; both results keep the row count and the width of
    the corresponding input. *)
Theorem C10_mgn_forward :
  forall (F : Type) (S : Scalar F) (node_dim edge_dim : nat)
         (edge_net node_net : list F -> list F)
         (x : Tensor2 F) (i j : list nat) (edge_attr : Tensor2 F),
    (forall r, length r = node_dim * 2 + edge_dim -> length (edge_net r) = edge_dim) ->
    (forall r, length r = node_dim + edge_dim -> length (node_net r) = node_dim) ->
    well_shaped x -> ncols x = node_dim ->
    well_shaped edge_attr -> ncols edge_attr = edge_dim ->
    length i = nrows edge_attr -> length j = nrows edge_attr ->
    Forall (fun k => k < nrows x) i -> Forall (fun k => k < nrows x) j ->
    exists x' e',
      MeshGraphNetsConv.forward
        (MeshGraphNetsConv.__init__ node_dim edge_dim edge_net node_net)
        x (i, j) edge_attr = Ok (x', e') /\
      (forall e ki kj xi xj ea,
         nth_error i e = Some ki -> nth_error j e = Some kj ->
         nth_error (rows x) ki = Some xi -> nth_error (rows x) kj = Some xj ->
         nth_error (rows edge_attr) e = Some ea ->
         nth_error (rows e') e = Some (edge_row_spec edge_net xi xj ea)) /\
      (forall n xn,
         nth_error (rows x) n = Some xn ->
         nth_error (rows x') n
         = Some (node_row_spec node_net xn (aggregate_at edge_dim n i (rows e')))) /\
      nrows e' = nrows edge_attr /\ ncols e' = edge_dim /\ well_shaped e' /\
      nrows x' = nrows x /\ ncols x' = node_dim /\ well_shaped x'.
Proof.
  intros F S nd ed edge_net node_net x i j ea
         Henet Hnnet Hwx Hcx Hwe Hce Hli Hlj Hi Hj.
  unfold MeshGraphNetsConv.forward, MeshGraphNetsConv.__init__.
  cbn [MeshGraphNetsConv.edge_processor MeshGraphNetsConv.node_processor app].
  destruct (index_rows_ok x Hi) as (xi & Exi & Hlxi & Hnxi & HPxi).
  destruct (index_rows_ok x Hj) as (xj & Exj & Hlxj & Hnxj & HPxj).
  rewrite Exi, Exj. cbn [bind].
  set (es := mk_Seq (nd * 2 + ed :: repeat ed 3) edge_net).
  set (ns := mk_Seq (nd + ed :: repeat nd 3) node_net).
  destruct (@EdgeProcessor_forward_ok F S es (mk_T (ncols x) xi) (mk_T (ncols x) xj) ea)
    as (ers & Ee & Hle & Hwe' & Hev).
  { intros r Hr. simpl in *. now apply Henet. }
  { simpl. lia. }
  { simpl. now rewrite Hce. }
  { unfold nrows. simpl. fold (nrows ea). lia. }
  { unfold nrows. simpl. fold (nrows ea). lia. }
  { apply HPxi. exact Hwx. }
  { apply HPxj. exact Hwx. }
  { exact Hwe. }
  rewrite Ee. cbn [bind].
  destruct (@NodeProcessor_forward_ok F S ns x i j (mk_T (ncols ea) ers))
    as (nrs & En & Hln & Hwn & Hnv).
  { intros r Hr. simpl in *. now apply Hnnet. }
  { simpl. lia. }
  { simpl. now rewrite Hcx. }
  { unfold nrows. simpl. fold (nrows ea). lia. }
  { exact Hi. }
  { exact Hwx. }
  { exact Hwe'. }
  rewrite En. cbn [bind].
  exists (mk_T (ncols x) nrs), (mk_T (ncols ea) ers).
  split; [reflexivity|]. split; [|split].
  - intros e ki kj r1 r2 r3 Hki Hkj H1 H2 H3. simpl.
    apply Hev; simpl; [| |exact H3].
    + rewrite (Hnxi _ _ Hki). exact H1.
    + rewrite (Hnxj _ _ Hkj). exact H2.
  - intros n xn Hxn. simpl. rewrite <- Hce. now apply Hnv.
  - unfold nrows, well_shaped. simpl. fold (nrows ea) (nrows x). auto 10.
Qed.

Example tri_forward :
  MeshGraphNetsConv.forward (MeshGraphNetsConv.__init__ 2 1 sum_net head_sum_net)
                            tri_x (tri_i, tri_j) tri_edge_attr
  = Ok (mk_T 2 [[2; 109]; [6; 69]; [10; 17]]%Z, mk_T 1 [[30]; [58]; [74]]%Z).
Proof. vm_compute. reflexivity. Qed.

Lemma C10_mgn_forward_witness :
  exists x' e',
    MeshGraphNetsConv.forward
      (MeshGraphNetsConv.__init__ 2 1 sum_net head_sum_net)
      tri_x (tri_i, tri_j) tri_edge_attr = Ok (x', e') /\
    (forall e ki kj xi xj ea,
       nth_error tri_i e = Some ki -> nth_error tri_j e = Some kj ->
       nth_error (rows tri_x) ki = Some xi -> nth_error (rows tri_x) kj = Some xj ->
       nth_error (rows tri_edge_attr) e = Some ea ->
       nth_error (rows e') e = Some (edge_row_spec sum_net xi xj ea)) /\
    (forall n xn,
       nth_error (rows tri_x) n = Some xn ->
       nth_error (rows x') n
       = Some (node_row_spec head_sum_net xn (aggregate_at 1 n tri_i (rows e')))) /\
    nrows e' = nrows tri_edge_attr /\ ncols e' = 1 /\ well_shaped e' /\
    nrows x' = nrows tri_x /\ ncols x' = 2 /\ well_shaped x'.
Proof.
  apply (@C10_mgn_forward Z Scalar_Z 2 1 sum_net head_sum_net
                          tri_x tri_i tri_j tri_edge_attr).
  - intros r _. reflexivity.
  - intros r _. reflexivity.
  - repeat constructor.
  - reflexivity.
  - repeat constructor.
  - reflexivity.
  - reflexivity.
  - reflexivity.
  - repeat constructor.
  - repeat constructor.
Defined.

(** * Further properties of the modelled code *)

(** ** [tp_path_exists] in terms of its arguments *)

Lemma simplify_step_labels (racc : Irreps.t) (c : nat * Irrep.t) :
  Forall (fun e => 0 < fst e) racc ->
  Forall (fun e => 0 < fst e) (Irreps.simplify_step racc c) /\
  (forall ir, (exists m, In (m, ir) (Irreps.simplify_step racc c)) <->
              (exists m, In (m, ir) racc) \/ (0 < fst c /\ ir = snd c)).
Proof.
  intros Hpos. destruct c as [mc irc]. unfold Irreps.simplify_step. simpl.
  destruct racc as [|[m0 ir0] rest].
  - destruct (Nat.ltb_spec 0 mc) as [Hm|Hm].
    + split; [repeat constructor; exact Hm|]. intros ir. split.
      * intros (m & [E|[]]). inversion E; subst. right. auto.
      * intros [(m & [])|(_ & ->)]. exists mc. now left.
    + split; [constructor|]. intros ir. split.
      * intros (m & []).
      * intros [(m & [])|(Hc & _)]. lia.
  - inversion Hpos as [|? ? Hm0 Hrest]; subst. simpl in Hm0.
    destruct (Irrep.eqb ir0 irc) eqn:Eq.
    + apply Irrep_eqb_eq in Eq. subst ir0. split.
      * constructor; [simpl; lia | exact Hrest].
      * intros ir. split.
        -- intros (m & [E|Hin]).
           ++ inversion E; subst. left. exists m0. now left.
           ++ left. exists m. now right.
        -- intros [(m & [E|Hin])|(_ & ->)].
           ++ inversion E; subst. exists (m + mc). now left.
           ++ exists m. now right.
           ++ exists (m0 + mc). now left.
    + destruct (Nat.ltb_spec 0 mc) as [Hm|Hm].
      * split; [constructor; [exact Hm | exact Hpos]|]. intros ir. split.
        -- intros (m & [E|Hin]).
           ++ inversion E; subst. right. auto.
           ++ left. now exists m.
        -- intros [(m & Hin)|(_ & ->)].
           ++ exists m. now right.
           ++ exists mc. now left.
      * split; [exact Hpos|]. intros ir. split.
        -- intros H. now left.
        -- intros [H|(Hc & _)]; [exact H | lia].
Qed.

Lemma fold_simplify_labels (x : Irreps.t) :
  forall racc,
    Forall (fun e => 0 < fst e) racc ->
    forall ir,
      (exists m, In (m, ir) (fold_left Irreps.simplify_step x racc)) <->
      (exists m, In (m, ir) racc) \/ has_label x ir.
Proof.
  unfold has_label.
  induction x as [|c x IH]; intros racc Hpos ir; simpl.
  - split; [now left | intros [H|(m & _ & [])]; exact H].
  - destruct (simplify_step_labels c Hpos) as (Hpos' & Hstep).
    rewrite (IH _ Hpos' ir), Hstep. split.
    + intros [[H|(Hc & ->)]|(m & Hm & Hin)].
      * now left.
      * right. exists (fst c). split; [exact Hc|]. left. now destruct c.
      * right. exists m. auto.
    + intros [H|(m & Hm & [E|Hin])].
      * left. now left.
      * subst c. left. right. auto.
      * right. exists m. auto.
Qed.

(** The labels kept by [simplify] are those that occur with a positive
    multiplicity. *)
Lemma simplify_labels (x : Irreps.t) (ir : Irrep.t) :
  (exists m, In (m, ir) (Irreps.simplify x)) <-> has_label x ir.
Proof.
  unfold Irreps.simplify.
  assert (H := @fold_simplify_labels x [] (Forall_nil _) ir).
  split.
  - intros (m & Hin). apply in_rev in Hin.
    destruct (proj1 H (ex_intro _ m Hin)) as [(m' & [])|Hl]. exact Hl.
  - intros Hl. destruct (proj2 H (or_intror Hl)) as (m & Hin).
    exists m. now apply in_rev in Hin.
Qed.

Lemma tp_path_exists_labels (A B : Irreps.t) (t : Irrep.t) :
  tp_path_exists A B t = true <->
  exists ir1 ir2, has_label A ir1 /\ has_label B ir2 /\ In t (Irrep.mul ir1 ir2).
Proof.
  rewrite tp_path_exists_iff. split.
  - intros ([m1 ir1] & [m2 ir2] & H1 & H2 & Hm). exists ir1, ir2.
    split; [|split; [|exact Hm]]; apply simplify_labels; eauto.
  - intros (ir1 & ir2 & H1 & H2 & Hm).
    apply simplify_labels in H1 as (m1 & H1).
    apply simplify_labels in H2 as (m2 & H2).
    now exists (m1, ir1), (m2, ir2).
Qed.

(** X1: [tp_path_exists A B t] holds exactly when A and B contain, with
    positive multiplicities, labels (l1, p1) and (l2, p2) such that
    |l1 - l2| <= l t <= l1 + l2 and p t = p1 * p2.  Entries of multiplicity
    zero, repeated labels and the order of the entries play no role. *)
Theorem X1_tp_path_exists_closed_form :
  forall (A B : Irreps.t) (t : Irrep.t),
    tp_path_exists A B t = true <->
    exists m1 ir1 m2 ir2,
      In (m1, ir1) A /\ 0 < m1 /\ In (m2, ir2) B /\ 0 < m2 /\
      p_val (Irrep.p t) = (p_val (Irrep.p ir1) * p_val (Irrep.p ir2))%Z /\
      Irrep.l ir1 - Irrep.l ir2 <= Irrep.l t /\
      Irrep.l ir2 - Irrep.l ir1 <= Irrep.l t /\
      Irrep.l t <= Irrep.l ir1 + Irrep.l ir2.
Proof.
  intros A B t. rewrite tp_path_exists_labels. unfold has_label. split.
  - intros (ir1 & ir2 & (m1 & Hm1 & H1) & (m2 & Hm2 & H2) & Hmul).
    apply Irrep_mul_rule in Hmul as (Hp & Hl).
    exists m1, ir1, m2, ir2. repeat split; try tauto.
    now rewrite Hp, Parity_mul_val.
  - intros (m1 & ir1 & m2 & ir2 & H1 & Hm1 & H2 & Hm2 & Hp & Hl).
    exists ir1, ir2. split; [eauto|]. split; [eauto|].
    apply Irrep_mul_rule. split; [|tauto].
    destruct (Irrep.p t), (Irrep.p ir1), (Irrep.p ir2); simpl in *;
      reflexivity || discriminate.
Qed.

(** X2: enlarging either representation never removes a path: if every entry
    of A is an entry of A' and every entry of B one of B', a path from (A, B)
    to t is also a path from (A', B'). *)
Theorem X2_tp_path_exists_monotone :
  forall (A A' B B' : Irreps.t) (t : Irrep.t),
    incl A A' -> incl B B' ->
    tp_path_exists A B t = true ->
    tp_path_exists A' B' t = true.
Proof.
  intros A A' B B' t HA HB. rewrite !tp_path_exists_labels.
  intros (ir1 & ir2 & (m1 & Hm1 & H1) & (m2 & Hm2 & H2) & Hmul).
  exists ir1, ir2. split; [|split; [|exact Hmul]].
  - exists m1. split; [exact Hm1 | now apply HA].
  - exists m2. split; [exact Hm2 | now apply HB].
Qed.

Lemma X2_tp_path_exists_monotone_witness :
  tp_path_exists [(64, ir_0e); (3, Irrep.mk 1 Odd)]
                 [(1, Irrep.mk 2 Even); (1, Irrep.mk 1 Even)]
                 (Irrep.mk 1 Even) = true.
Proof.
  apply (@X2_tp_path_exists_monotone
           [(64, ir_0e)] [(64, ir_0e); (3, Irrep.mk 1 Odd)]
           [(1, Irrep.mk 1 Even)] [(1, Irrep.mk 2 Even); (1, Irrep.mk 1 Even)]).
  - intros c [<-|[]]. now left.
  - intros c [<-|[]]. right. now left.
  - reflexivity.
Defined.

(** X3: the two targets tested for the gates.  A path to 0e exists exactly
    when the two representations share a label, and a path to 0o exactly
    when they contain labels of one degree and opposite parities (both with
    positive multiplicities). *)
Theorem X3_scalar_targets :
  forall (A B : Irreps.t),
    (tp_path_exists A B ir_0e = true <->
       exists ir, has_label A ir /\ has_label B ir) /\
    (tp_path_exists A B ir_0o = true <->
       exists d q, has_label A (Irrep.mk d q) /\
                   has_label B (Irrep.mk d (Parity_mul q Odd))).
Proof.
  intros A B. split; rewrite tp_path_exists_labels; split.
  - intros (ir1 & ir2 & H1 & H2 & Hmul).
    apply Irrep_mul_rule in Hmul as (Hp & Ha & Hb & _). simpl in *.
    exists ir1. split; [exact H1|].
    replace ir1 with ir2; [exact H2|].
    destruct ir1 as [l1 p1], ir2 as [l2 p2]; simpl in *.
    f_equal; [lia | destruct p1, p2; simpl in *; congruence].
  - intros (ir & H1 & H2). exists ir, ir. split; [exact H1|]. split; [exact H2|].
    apply Irrep_mul_rule. simpl. split; [now destruct (Irrep.p ir) | lia].
  - intros (ir1 & ir2 & H1 & H2 & Hmul).
    apply Irrep_mul_rule in Hmul as (Hp & Ha & Hb & _). simpl in *.
    destruct ir1 as [l1 p1], ir2 as [l2 p2]; simpl in *.
    exists l1, p1. split; [exact H1|].
    replace (Irrep.mk l1 (Parity_mul p1 Odd)) with (Irrep.mk l2 p2); [exact H2|].
    f_equal; [lia | destruct p1, p2; simpl in *; congruence].
  - intros (d & q & H1 & H2).
    exists (Irrep.mk d q), (Irrep.mk d (Parity_mul q Odd)).
    split; [exact H1|]. split; [exact H2|].
    apply Irrep_mul_rule. simpl. split; [now destruct q | lia].
Qed.

(** ** Outcomes of the builder *)

Lemma dim_zero_entry (x : Irreps.t) :
  x <> [] -> Irreps.dim x = 0 -> exists c, In c x /\ fst c = 0.
Proof.
  destruct x as [|[m ir] x]; [congruence|]. intros _ Hd. simpl in Hd.
  exists (m, ir). split; [now left|]. simpl. unfold Irrep.dim in Hd. nia.
Qed.

(** What a built layer is made of. *)
Lemma layer_inv (a : args) (irreps : Irreps.t) (L : Compose.t) :
  layer a irreps = Ok L ->
  let scalars := irreps_scalars a irreps in
  let gated := irreps_gated a irreps in
  let gates := if 0 <? Irreps.dim gated
               then [(num_irreps gated, gate_label a)] else [] in
  (0 < Irreps.dim gated -> gate_reachable a = true) /\
  (Irreps.dim gated = 0 -> gated = []) /\
  L = Compose.__init__
        (E3NN_Interaction.mk irreps (a_irreps_node a) (a_irreps_edge a)
           (scalars ++ gates ++ gated) (a_radial_neurons a) (a_num_neighbors a))
        (Gate.mk scalars (map (fun c => act_scalars (Irrep.p (snd c))) scalars)
                 gates (map (fun c => act_gates (Irrep.p (snd c))) gates)
                 gated).
Proof.
  intros HL scalars gated gates. unfold layer in HL.
  fold scalars gated in HL. unfold gate_ir in HL.
  unfold gates, gate_reachable, gate_label.
  destruct (Nat.ltb_spec 0 (Irreps.dim gated)) as [Hd|Hd].
  - assert (Hn : (num_irreps gated =? 0) = false).
    { apply Nat.eqb_neq. apply dim_pos_num_irreps in Hd. lia. }
    destruct (tp_path_exists _ _ ir_0e); simpl in HL.
    + rewrite simplify_const, Hn in HL. inversion HL; subst.
      split; [reflexivity|]. split; [lia|].
      unfold Gate.irreps_in, Irreps.add. simpl. now rewrite <- app_assoc.
    + destruct (tp_path_exists _ _ ir_0o); simpl in HL; [|discriminate].
      rewrite simplify_const, Hn in HL. inversion HL; subst.
      split; [reflexivity|]. split; [lia|].
      unfold Gate.irreps_in, Irreps.add. simpl. now rewrite <- app_assoc.
  - simpl in HL. destruct gated as [|c0 gated0] eqn:Eg; simpl in HL; [|discriminate].
    inversion HL; subst. split; [lia|]. split; [reflexivity|].
    unfold Gate.irreps_in, Irreps.add. simpl. now rewrite <- app_assoc.
Qed.

Lemma layer_raise_inv (a : args) (irreps : Irreps.t) (e : exn) :
  layer a irreps = Raise e ->
  (e = ValueError_gates irreps (a_irreps_edge a) (irreps_gated a irreps) /\
   0 < Irreps.dim (irreps_gated a irreps) /\ gate_reachable a = false) \/
  (e = ValueError_irrep /\
   exists c, In c (a_irreps_hidden a) /\ fst c = 0 /\ 0 < Irrep.l (snd c)).
Proof.
  unfold layer, gate_ir, gate_reachable.
  destruct (Nat.ltb_spec 0 (Irreps.dim (irreps_gated a irreps))) as [Hd|Hd].
  - destruct (tp_path_exists _ _ ir_0e); simpl; [discriminate|].
    destruct (tp_path_exists _ _ ir_0o); simpl; [discriminate|].
    intros E. inversion E; subst. left. auto.
  - simpl. destruct (irreps_gated a irreps) as [|c0 g] eqn:Eg; simpl; [discriminate|].
    intros E. inversion E; subst. right. split; [reflexivity|].
    destruct (@dim_zero_entry (c0 :: g)) as (c & Hc & Hz); [congruence | lia |].
    rewrite <- Eg in Hc. unfold irreps_gated in Hc.
    apply filter_In in Hc as (Hin & Hf). apply andb_true_iff in Hf as (Hl & _).
    apply Nat.ltb_lt in Hl. exists c. auto.
Qed.

Lemma loop_raise_inv (a : args) (e : exn) :
  forall n start, loop a n start = Raise e ->
                  0 < n /\ exists irreps, layer a irreps = Raise e.
Proof.
  induction n as [|n IH]; intros start; simpl; [discriminate|].
  destruct (layer a start) as [c|e0] eqn:El; simpl.
  - destruct (loop a n _) as [[rest fin]|e0] eqn:Er; simpl; [discriminate|].
    intros E. inversion E; subst. split; [lia|].
    destruct (IH _ Er) as (_ & H). exact H.
  - intros E. inversion E; subst. split; [lia|]. now exists start.
Qed.

Lemma layer_total (a : args) (irreps : Irreps.t) :
  gate_reachable a = true ->
  Forall (fun c => 0 < Irrep.l (snd c) -> 0 < fst c) (a_irreps_hidden a) ->
  exists L, layer a irreps = Ok L.
Proof.
  intros Hg Hpos. destruct (layer a irreps) as [L|e] eqn:El; [now exists L|].
  apply layer_raise_inv in El as [(_ & _ & Hn)|(_ & c & Hc & Hz & Hl)].
  - congruence.
  - rewrite Forall_forall in Hpos. specialize (Hpos c Hc Hl). lia.
Qed.

Lemma loop_total (a : args) :
  (forall irreps, exists L, layer a irreps = Ok L) ->
  forall n start, exists layers final, loop a n start = Ok (layers, final).
Proof.
  intros Hl. induction n as [|n IH]; intros start; simpl.
  - now exists [], start.
  - destruct (Hl start) as (L & ->). simpl.
    destruct (IH (Gate.irreps_out (Compose.second L))) as (ls & fin & ->).
    simpl. now exists (L :: ls), fin.
Qed.

(** X4: construction succeeds, with [num_convs - 1] composed layers, whenever
    [radial_neurons] and [irreps_in] are not empty and either [num_convs] is
    at most 1, or a path from (irreps_node, irreps_edge) to 0e or to 0o
    exists and no component of [irreps_hidden] of positive degree has
    multiplicity zero. *)
Theorem X4_init_succeeds :
  forall a : args,
    a_radial_neurons a <> [] ->
    a_irreps_in a <> [] ->
    ((a_num_convs a <= 1)%Z \/
     (gate_reachable a = true /\
      Forall (fun c => 0 < Irrep.l (snd c) -> 0 < fst c) (a_irreps_hidden a))) ->
    exists m, __init__ a = Ok m /\
              length (interactions m) = Z.to_nat (a_num_convs a - 1).
Proof.
  intros a Hr Hi Hcase.
  assert (Hloop : exists layers final,
             loop a (Z.to_nat (a_num_convs a - 1)) (a_irreps_in a)
             = Ok (layers, final)).
  { destruct Hcase as [Hn|(Hg & Hpos)].
    - replace (Z.to_nat (a_num_convs a - 1)) with 0 by lia.
      now exists [], (a_irreps_in a).
    - apply loop_total. intros irreps. now apply layer_total. }
  destruct Hloop as (layers & final & Hloop).
  unfold __init__.
  destruct (a_radial_neurons a) as [|n0 ?]; [congruence|].
  destruct (a_irreps_in a) as [|c0 ?] eqn:Ein; [congruence|]. simpl.
  rewrite Hloop. simpl. eexists. split; [reflexivity|]. simpl.
  eapply loop_length. eassumption.
Qed.

Lemma X4_init_succeeds_witness :
  exists m, __init__ default_args = Ok m /\
            length (interactions m) = Z.to_nat (a_num_convs default_args - 1).
Proof.
  apply (@X4_init_succeeds default_args).
  - simpl. discriminate.
  - simpl. discriminate.
  - right. split; [reflexivity|]. simpl. repeat constructor; simpl; lia.
Defined.

(** X5: the only exceptions of the constructor.  It raises IndexError
    exactly when [radial_neurons] or [irreps_in] is empty; any other
    exception needs [num_convs >= 2] and is either the ValueError of line 90,
    raised at a layer whose gated partition has positive dimension while
    neither 0e nor 0o is reachable from (irreps_node, irreps_edge), or the
    error of building gates without a label, which needs a component of
    [irreps_hidden] of positive degree and multiplicity zero. *)
Theorem X5_init_exceptions :
  forall (a : args) (e : exn),
    __init__ a = Raise e ->
    (e = IndexError <-> (a_radial_neurons a = [] \/ a_irreps_in a = [])) /\
    (e <> IndexError ->
       (1 < a_num_convs a)%Z /\
       ((exists irreps,
           e = ValueError_gates irreps (a_irreps_edge a) (irreps_gated a irreps) /\
           0 < Irreps.dim (irreps_gated a irreps) /\
           gate_reachable a = false) \/
        (e = ValueError_irrep /\
         exists c, In c (a_irreps_hidden a) /\ fst c = 0 /\ 0 < Irrep.l (snd c)))).
Proof.
  intros a e. unfold __init__.
  destruct (a_radial_neurons a) as [|n0 rn]; simpl.
  { intros E. inversion E; subst. split; [tauto | congruence]. }
  destruct (a_irreps_in a) as [|c0 ri]; simpl.
  { intros E. inversion E; subst. split; [tauto | congruence]. }
  destruct (loop a _ _) as [[layers final]|e0] eqn:El; simpl; [discriminate|].
  intros E. inversion E; subst.
  apply loop_raise_inv in El as (Hn & irreps & Hl).
  assert (Hcases := layer_raise_inv _ _ Hl).
  split.
  - split; [|intros [H|H]; discriminate].
    intros ->. destruct Hcases as [(H & _)|(H & _)]; discriminate.
  - intros _. split; [lia|].
    destruct Hcases as [(-> & Hd & Hg)|(-> & Hc)]; [left | right]; eauto.
Qed.

Lemma X5_init_exceptions_witness :
  let a := no_gate_args in
  let e := ValueError_gates [(64, Irrep.mk 0 Even)]
                            [(1, Irrep.mk 0 Even); (1, Irrep.mk 2 Even)]
                            [(8, Irrep.mk 2 Even)] in
  (e = IndexError <-> (a_radial_neurons a = [] \/ a_irreps_in a = [])) /\
  (e <> IndexError ->
     (1 < a_num_convs a)%Z /\
     ((exists irreps,
         e = ValueError_gates irreps (a_irreps_edge a) (irreps_gated a irreps) /\
         0 < Irreps.dim (irreps_gated a irreps) /\
         gate_reachable a = false) \/
      (e = ValueError_irrep /\
       exists c, In c (a_irreps_hidden a) /\ fst c = 0 /\ 0 < Irrep.l (snd c)))).
Proof.
  apply (@X5_init_exceptions no_gate_args). reflexivity.
Defined.

(** ** The layers of a built model *)

Lemma model_layer (a : args) (m : E3NN_NequIP.t) (c : Compose.t) :
  __init__ a = Ok m -> In c (interactions m) -> layer a (conv_in c) = Ok c.
Proof.
  intros Hm Hc. destruct (init_inv _ Hm) as (final & Hloop & _).
  pose proof (loop_built_by_layer _ _ _ Hloop) as Hall.
  rewrite Forall_forall in Hall. now apply Hall.
Qed.

Lemma dim_app (x y : Irreps.t) :
  Irreps.dim (x ++ y) = Irreps.dim x + Irreps.dim y.
Proof. induction x as [|c x IH]; simpl; [reflexivity | rewrite IH; lia]. Qed.

Lemma dim_Permutation (x y : Irreps.t) :
  Permutation x y -> Irreps.dim x = Irreps.dim y.
Proof. induction 1; simpl; lia. Qed.

(** X6: the arguments handed to [Gate] at every composed layer of a built
    model are well formed: the scalars all have degree 0, the gated entries
    all have positive degree, the gates are scalars that all carry one label
    (0e when reachable from (irreps_node, irreps_edge), 0o otherwise), there
    is exactly one gate per gated irrep, and each list of activations follows
    its representation entry by entry (silu or sigmoid for even parity, tanh
    for odd). *)
Theorem X6_gate_arguments :
  forall (a : args) (m : E3NN_NequIP.t) (c : Compose.t),
    __init__ a = Ok m ->
    In c (interactions m) ->
    let g := Compose.second c in
    Forall (fun e => Irrep.l (snd e) = 0) (Gate.irreps_scalars g) /\
    Forall (fun e => 0 < Irrep.l (snd e)) (Gate.irreps_gated g) /\
    Forall (fun e => snd e = gate_label a) (Gate.irreps_gates g) /\
    num_irreps (Gate.irreps_gates g) = num_irreps (Gate.irreps_gated g) /\
    Gate.acts_scalars g
    = map (fun e => match Irrep.p (snd e) with Even => silu | Odd => tanh end)
          (Gate.irreps_scalars g) /\
    Gate.acts_gates g
    = map (fun e => match Irrep.p (snd e) with Even => sigmoid | Odd => tanh end)
          (Gate.irreps_gates g).
Proof.
  intros a m c Hm Hc g. pose proof (model_layer _ _ Hm Hc) as HL.
  apply layer_inv in HL. cbv zeta in HL. destruct HL as (_ & Hnil & HL).
  unfold g. rewrite HL. simpl. clear HL g.
  split; [|split; [|split; [|split; [|split]]]].
  - apply Forall_forall. intros e He. unfold irreps_scalars in He.
    apply filter_In in He as (_ & Hf). apply andb_true_iff in Hf as (Hl & _).
    now apply Nat.eqb_eq.
  - apply Forall_forall. intros e He. unfold irreps_gated in He.
    apply filter_In in He as (_ & Hf). apply andb_true_iff in Hf as (Hl & _).
    now apply Nat.ltb_lt.
  - destruct (0 <? _); repeat constructor.
  - destruct (Nat.ltb_spec 0 (Irreps.dim (irreps_gated a (conv_in c)))) as [Hd|Hd].
    + unfold num_irreps at 1. simpl. lia.
    + rewrite Hnil by lia. reflexivity.
  - reflexivity.
  - reflexivity.
Qed.

Lemma X6_gate_arguments_witness :
  exists (m : E3NN_NequIP.t) (c : Compose.t),
    __init__ default_args = Ok m /\
    nth_error (interactions m) 1 = Some c /\
    Gate.irreps_gates (Compose.second c) = [(16, ir_0e)] /\
    Forall (fun e => Irrep.l (snd e) = 0) (Gate.irreps_scalars (Compose.second c)) /\
    Forall (fun e => 0 < Irrep.l (snd e)) (Gate.irreps_gated (Compose.second c)) /\
    Forall (fun e => snd e = gate_label default_args)
           (Gate.irreps_gates (Compose.second c)) /\
    num_irreps (Gate.irreps_gates (Compose.second c))
    = num_irreps (Gate.irreps_gated (Compose.second c)) /\
    Gate.acts_scalars (Compose.second c)
    = map (fun e => match Irrep.p (snd e) with Even => silu | Odd => tanh end)
          (Gate.irreps_scalars (Compose.second c)) /\
    Gate.acts_gates (Compose.second c)
    = map (fun e => match Irrep.p (snd e) with Even => sigmoid | Odd => tanh end)
          (Gate.irreps_gates (Compose.second c)).
Proof.
  eexists. eexists.
  split; [vm_compute; reflexivity|].
  split; [reflexivity|].
  split; [reflexivity|].
  eapply (@X6_gate_arguments default_args).
  - vm_compute. reflexivity.
  - simpl. right. left. reflexivity.
Defined.



Lemma gate_out_partitions (a : args) (irreps : Irreps.t) (L : Compose.t) :
  layer a irreps = Ok L ->
  gate_out L = irreps_scalars a irreps ++ irreps_gated a irreps.
Proof.
  intros HL. apply layer_partitions in HL as (Hs & Hg & _).
  unfold gate_out, Gate.irreps_out, Irreps.add. now rewrite Hs, Hg.
Qed.

Lemma Irrep_mul_0e (ir : Irrep.t) : In ir (Irrep.mul ir ir_0e).
Proof.
  apply Irrep_mul_rule. simpl. split; [now destruct (Irrep.p ir) | lia].
Qed.



(** X9: the representations declared by the [Compose] modules of a built
    model fit together: each module declares the [irreps_in] of its
    interaction and the [irreps_out] of its gate, the first module starts
    from the model's [irreps_in], and the [irreps_out] declared by a module
    is the [irreps_in] declared by the next one. *)
Theorem X9_compose_declarations :
  forall (a : args) (m : E3NN_NequIP.t),
    __init__ a = Ok m ->
    (forall c, In c (interactions m) ->
       Compose.irreps_in c = E3NN_Interaction.irreps_in (Compose.first c) /\
       Compose.irreps_out c = Gate.irreps_out (Compose.second c)) /\
    (forall c, nth_error (interactions m) 0 = Some c ->
       Compose.irreps_in c = E3NN_NequIP.irreps_in m) /\
    (forall k c c',
       nth_error (interactions m) k = Some c ->
       nth_error (interactions m) (S k) = Some c' ->
       Compose.irreps_out c = Compose.irreps_in c').
Proof.
  intros a m Hm.
  destruct (init_inv _ Hm) as (final & Hloop & _ & Hin & _).
  destruct (loop_chain _ _ _ Hloop) as (Hhead & Hchain & _).
  assert (Hdecl : forall c, In c (interactions m) ->
            Compose.irreps_in c = E3NN_Interaction.irreps_in (Compose.first c) /\
            Compose.irreps_out c = Gate.irreps_out (Compose.second c)).
  { intros c Hc. pose proof (model_layer _ _ Hm Hc) as HL.
    apply layer_inv in HL. cbv zeta in HL. destruct HL as (_ & _ & HL).
    rewrite HL. split; reflexivity. }
  split; [exact Hdecl|]. split.
  - intros c Hc. destruct (Hdecl c (nth_error_In _ _ Hc)) as (-> & _).
    rewrite Hin. now apply Hhead.
  - intros k c c' Hk Hk'.
    destruct (Hdecl c (nth_error_In _ _ Hk)) as (_ & ->).
    destruct (Hdecl c' (nth_error_In _ _ Hk')) as (-> & _).
    eapply Hchain; eassumption.
Qed.

Lemma X9_compose_declarations_witness :
  exists m : E3NN_NequIP.t,
    __init__ default_args = Ok m /\
    (forall c, In c (interactions m) ->
       Compose.irreps_in c = E3NN_Interaction.irreps_in (Compose.first c) /\
       Compose.irreps_out c = Gate.irreps_out (Compose.second c)) /\
    (forall c, nth_error (interactions m) 0 = Some c ->
       Compose.irreps_in c = E3NN_NequIP.irreps_in m) /\
    (forall k c c',
       nth_error (interactions m) k = Some c ->
       nth_error (interactions m) (S k) = Some c' ->
       Compose.irreps_out c = Compose.irreps_in c').
Proof.
  eexists. split; [vm_compute; reflexivity|].
  apply (@X9_compose_declarations default_args). vm_compute. reflexivity.
Defined.

(** X10: the width of the embedding table is the multiplicity of the first
    entry of [irreps_in] (line 73).  It is the dimension of [irreps_in], the
    input the first interaction is built for, exactly when that first entry
    is a scalar (or has multiplicity zero) and the remaining entries have
    total dimension zero. *)
Theorem X10_embedding_width :
  forall (a : args) (m : E3NN_NequIP.t),
    __init__ a = Ok m ->
    exists m0 ir0 rest,
      a_irreps_in a = (m0, ir0) :: rest /\
      node_embedding m = (a_num_species a, m0) /\
      (snd (node_embedding m) = Irreps.dim (E3NN_NequIP.irreps_in m) <->
       (m0 = 0 \/ Irrep.l ir0 = 0) /\ Irreps.dim rest = 0).
Proof.
  intros a m. unfold __init__.
  destruct (a_radial_neurons a) as [|n0 rn]; simpl; [discriminate|].
  destruct (a_irreps_in a) as [|[m0 ir0] rest]; simpl; [discriminate|].
  destruct (loop a _ _) as [[layers final]|e]; simpl; [|discriminate].
  intros E. inversion E; subst; simpl. exists m0, ir0, rest.
  split; [reflexivity|]. split; [reflexivity|].
  unfold Irrep.dim. split.
  - intros H. split; [|lia]. destruct m0; [now left | right; nia].
  - intros ([->| ->] & ->); lia.
Qed.

Lemma X10_embedding_width_witness :
  exists m : E3NN_NequIP.t,
    __init__ default_args = Ok m /\
    exists m0 ir0 rest,
      a_irreps_in default_args = (m0, ir0) :: rest /\
      node_embedding m = (a_num_species default_args, m0) /\
      (snd (node_embedding m) = Irreps.dim (E3NN_NequIP.irreps_in m) <->
       (m0 = 0 \/ Irrep.l ir0 = 0) /\ Irreps.dim rest = 0).
Proof.
  eexists. split; [vm_compute; reflexivity|].
  apply (@X10_embedding_width default_args). vm_compute. reflexivity.
Defined.

(** ** Failures of the MeshGraphNets convolution *)

(** Inversion of one [bind] in a hypothesis. *)
Ltac bind_inv H x E :=
  match type of H with
  | bind ?c _ = _ =>
      destruct c as [x|?] eqn:E; cbn [bind] in H; [|discriminate H]
  end.

Lemma mapM_rows_inv {F} (rs : list (list F)) (i : list nat) (out : list (list F)) :
  mapM (fun k => match nth_error rs k with
                 | Some r => Ok r
                 | None => Raise IndexError
                 end) i = Ok out ->
  Forall (fun k => k < length rs) i /\ length out = length i.
Proof.
  revert out. induction i as [|k i IH]; intros out H; simpl in H.
  - inversion H; subst. split; constructor.
  - destruct (nth_error rs k) as [r|] eqn:Er; cbn [bind] in H; [|discriminate].
    bind_inv H bs Eb. inversion H; subst.
    destruct (IH _ eq_refl) as (Hall & Hlen). split.
    + constructor; [|exact Hall]. apply nth_error_Some. congruence.
    + simpl. now rewrite Hlen.
Qed.

Lemma mapM_rows_raise {F} (rs : list (list F)) (i : list nat) (e : exn) :
  mapM (fun k => match nth_error rs k with
                 | Some r => Ok r
                 | None => Raise IndexError
                 end) i = Raise e ->
  e = IndexError /\ Exists (fun k => length rs <= k) i.
Proof.
  induction i as [|k i IH]; intros H; simpl in H; [discriminate|].
  destruct (nth_error rs k) as [r|] eqn:Er; cbn [bind] in H.
  - destruct (mapM _ i) as [bs|e0] eqn:Eb; cbn [bind] in H; [discriminate|].
    inversion H; subst. destruct (IH eq_refl) as (-> & Hex).
    split; [reflexivity | now apply Exists_cons_tl].
  - inversion H; subst. split; [reflexivity|].
    apply Exists_cons_hd. now apply nth_error_None.
Qed.

Lemma index_rows_inv {F} (x : Tensor2 F) (i : list nat) (t : Tensor2 F) :
  index_rows x i = Ok t ->
  Forall (fun k => k < nrows x) i /\ ncols t = ncols x /\ nrows t = length i.
Proof.
  unfold index_rows. intros H. bind_inv H rs Er. inversion H; subst.
  apply mapM_rows_inv in Er as (Hall & Hlen). auto.
Qed.

Lemma index_rows_raise {F} (x : Tensor2 F) (i : list nat) (e : exn) :
  index_rows x i = Raise e ->
  e = IndexError /\ Exists (fun k => nrows x <= k) i.
Proof.
  unfold index_rows. intros H.
  destruct (mapM _ i) as [rs|e0] eqn:Er; cbn [bind] in H; [discriminate|].
  inversion H; subst. now apply mapM_rows_raise in Er.
Qed.

Lemma index_rows_out_of_range {F} (x : Tensor2 F) (i : list nat) :
  Exists (fun k => nrows x <= k) i -> index_rows x i = Raise IndexError.
Proof.
  intros Hex. destruct (index_rows x i) as [t|e] eqn:E.
  - apply index_rows_inv in E as (Hall & _).
    apply Exists_exists in Hex as (k & Hk & Hge).
    rewrite Forall_forall in Hall. specialize (Hall k Hk). lia.
  - now apply index_rows_raise in E as (-> & _).
Qed.

Lemma cat2_inv {F} (a b t : Tensor2 F) :
  cat2 a b = Ok t ->
  nrows a = nrows b /\ ncols t = ncols a + ncols b /\ nrows t = nrows a.
Proof.
  unfold cat2. destruct (Nat.eqb_spec (nrows a) (nrows b)) as [E|E]; [|discriminate].
  intros H. inversion H; subst. unfold nrows in *. simpl.
  rewrite length_zip_with. repeat split; lia.
Qed.

Lemma cat2_raise {F} (a b : Tensor2 F) (e : exn) :
  cat2 a b = Raise e -> e = RuntimeError_shape.
Proof. unfold cat2. destruct (_ =? _); congruence. Qed.

Lemma Sequential_forward_inv {F} (s : Sequential F) (t out : Tensor2 F) :
  Sequential_forward s t = Ok out ->
  ncols t = hd 0 (hs s) /\ ncols out = last (hs s) 0 /\ nrows out = nrows t.
Proof.
  unfold Sequential_forward.
  destruct (Nat.eqb_spec (ncols t) (hd 0 (hs s))) as [E|E]; [|discriminate].
  intros H. inversion H; subst. unfold nrows. simpl. rewrite length_map. auto.
Qed.

Lemma Sequential_forward_raise {F} (s : Sequential F) (t : Tensor2 F) (e : exn) :
  Sequential_forward s t = Raise e -> e = RuntimeError_shape.
Proof. unfold Sequential_forward. destruct (_ =? _); congruence. Qed.

Lemma broadcast_to_inv {F} `{Scalar F} (b t : Tensor2 F) (n c : nat) :
  broadcast_to b n c = Ok t ->
  (ncols b = c \/ ncols b = 1) /\ ncols t = c /\
  (nrows b = n -> nrows t = n).
Proof.
  unfold broadcast_to. intros H0.
  destruct (Nat.eqb_spec (nrows b) n) as [En|En]; cbn [bind] in H0.
  - destruct (Nat.eqb_spec (ncols b) c) as [Ec|Ec].
    + inversion H0; subst. auto.
    + destruct (Nat.eqb_spec (ncols b) 1) as [E1|E1]; [|discriminate].
      inversion H0; subst. unfold nrows. simpl. rewrite length_map. auto.
  - destruct (rows b) as [|r [|r' rs]]; cbn [bind] in H0; try discriminate.
    destruct (Nat.eqb_spec (ncols b) c) as [Ec|Ec].
    + inversion H0; subst. split; [auto|]. split; [reflexivity | congruence].
    + destruct (Nat.eqb_spec (ncols b) 1) as [E1|E1]; [|discriminate].
      inversion H0; subst. split; [auto|]. split; [reflexivity | congruence].
Qed.

Lemma broadcast_to_raise {F} `{Scalar F} (b : Tensor2 F) (n c : nat) (e : exn) :
  broadcast_to b n c = Raise e -> e = RuntimeError_shape.
Proof.
  unfold broadcast_to.
  destruct (nrows b =? n); cbn [bind].
  - destruct (_ =? _); [discriminate|]. destruct (_ =? _); congruence.
  - destruct (rows b) as [|r [|r' rs]]; cbn [bind]; try congruence.
    destruct (_ =? _); [discriminate|]. destruct (_ =? _); congruence.
Qed.

Lemma iadd_inv {F} `{Scalar F} (out b t : Tensor2 F) :
  iadd out b = Ok t ->
  (ncols b = ncols out \/ ncols b = 1) /\ ncols t = ncols out /\
  (nrows b = nrows out -> nrows t = nrows out).
Proof.
  unfold iadd. intros H0. bind_inv H0 b' Eb. inversion H0; subst. simpl.
  apply broadcast_to_inv in Eb as (Hc & _ & Hr).
  split; [exact Hc|]. split; [reflexivity|].
  intros Hn. specialize (Hr Hn). unfold nrows in *. simpl.
  rewrite length_zip_with. lia.
Qed.

Lemma iadd_raise {F} `{Scalar F} (out b : Tensor2 F) (e : exn) :
  iadd out b = Raise e -> e = RuntimeError_shape.
Proof.
  unfold iadd. destruct (broadcast_to _ _ _) as [b'|e0] eqn:Eb; cbn [bind].
  - discriminate.
  - intros E. inversion E; subst. eapply broadcast_to_raise; eassumption.
Qed.

Lemma scatter_add_length {F} `{Scalar F} :
  forall (index : list nat) (src out rs : list (list F)),
    scatter_add_ out index src = Ok rs -> length rs = length out.
Proof.
  induction index as [|k index IH]; intros src out rs E; simpl in E.
  - inversion E; reflexivity.
  - destruct src as [|r src]; [inversion E; reflexivity|].
    destruct (nth_error out k) as [o|]; [|discriminate].
    apply IH in E. now rewrite length_set_nth in E.
Qed.

Lemma scatter_inv {F} `{Scalar F} (src t : Tensor2 F) (index : list nat) (N : nat) :
  scatter src index N = Ok t ->
  length index = nrows src /\ ncols t = ncols src /\ nrows t = N.
Proof.
  unfold scatter.
  destruct (Nat.eqb_spec (length index) (nrows src)) as [E|E]; [|discriminate].
  intros H0. bind_inv H0 rs Er. inversion H0; subst.
  apply scatter_add_length in Er. rewrite repeat_length in Er. auto.
Qed.

Lemma scatter_raise {F} `{Scalar F} (src : Tensor2 F) (index : list nat) (N : nat)
      (e : exn) :
  Forall (fun k => k < N) index ->
  scatter src index N = Raise e -> e = RuntimeError_shape.
Proof.
  intros Hidx. unfold scatter.
  destruct (Nat.eqb_spec (length index) (nrows src)) as [E|E]; [|congruence].
  destruct (@scatter_add_spec F _ index (rows src)
              (repeat (repeat f_zero (ncols src)) N)) as (rs & -> & _).
  { now rewrite repeat_length. }
  discriminate.
Qed.

Lemma EdgeProcessor_forward_inv {F} `{Scalar F} (s : Sequential F)
      (x_i x_j edge_attr out : Tensor2 F) :
  EdgeProcessor.forward (EdgeProcessor.mk s) x_i x_j edge_attr = Ok out ->
  nrows x_i = nrows x_j /\ nrows x_i = nrows edge_attr /\
  ncols x_i + ncols x_j + ncols edge_attr = hd 0 (hs s) /\
  (ncols edge_attr = last (hs s) 0 \/ ncols edge_attr = 1) /\
  ncols out = last (hs s) 0 /\ nrows out = nrows edge_attr.
Proof.
  unfold EdgeProcessor.forward, cat3. cbn [EdgeProcessor.edge_mlp]. intros H0.
  destruct (cat2 x_i x_j) as [ab|?] eqn:Eab; cbn [bind] in H0; [|discriminate].
  bind_inv H0 abc Eabc. bind_inv H0 y Ey. bind_inv H0 z Ez. inversion H0; subst.
  apply cat2_inv in Eab as (R1 & C1 & R1').
  apply cat2_inv in Eabc as (R2 & C2 & R2').
  apply Sequential_forward_inv in Ey as (C3 & C4 & R3).
  apply iadd_inv in Ez as (C5 & C6 & R5).
  repeat split; lia.
Qed.

Lemma EdgeProcessor_forward_raise {F} `{Scalar F} (s : Sequential F)
      (x_i x_j edge_attr : Tensor2 F) (e : exn) :
  EdgeProcessor.forward (EdgeProcessor.mk s) x_i x_j edge_attr = Raise e ->
  e = RuntimeError_shape.
Proof.
  unfold EdgeProcessor.forward, cat3. cbn [EdgeProcessor.edge_mlp]. intros H0.
  destruct (cat2 x_i x_j) as [ab|?] eqn:Eab; cbn [bind] in H0;
    [|inversion H0; subst; eapply cat2_raise; eassumption].
  destruct (cat2 ab edge_attr) as [abc|?] eqn:Eabc; cbn [bind] in H0;
    [|inversion H0; subst; eapply cat2_raise; eassumption].
  destruct (Sequential_forward s abc) as [y|?] eqn:Ey; cbn [bind] in H0;
    [|inversion H0; subst; eapply Sequential_forward_raise; eassumption].
  destruct (iadd y edge_attr) as [z|?] eqn:Ez; cbn [bind] in H0;
    [discriminate | inversion H0; subst; eapply iadd_raise; eassumption].
Qed.

Lemma NodeProcessor_forward_inv {F} `{Scalar F} (s : Sequential F)
      (x : Tensor2 F) (i j : list nat) (edge_attr out : Tensor2 F) :
  NodeProcessor.forward (NodeProcessor.mk s) x (i, j) edge_attr = Ok out ->
  length i = nrows edge_attr /\
  ncols x + ncols edge_attr = hd 0 (hs s) /\
  (ncols x = last (hs s) 0 \/ ncols x = 1) /\
  ncols out = last (hs s) 0 /\ nrows out = nrows x.
Proof.
  unfold NodeProcessor.forward. cbn [NodeProcessor.node_mlp]. intros H0.
  bind_inv H0 agg Ea. bind_inv H0 xa Exa. bind_inv H0 y Ey. bind_inv H0 z Ez.
  inversion H0; subst.
  apply scatter_inv in Ea as (L1 & C1 & R1).
  apply cat2_inv in Exa as (R2 & C2 & R2').
  apply Sequential_forward_inv in Ey as (C3 & C4 & R3).
  apply iadd_inv in Ez as (C5 & C6 & R5).
  repeat split; lia.
Qed.

Lemma NodeProcessor_forward_raise {F} `{Scalar F} (s : Sequential F)
      (x : Tensor2 F) (i j : list nat) (edge_attr : Tensor2 F) (e : exn) :
  Forall (fun k => k < nrows x) i ->
  NodeProcessor.forward (NodeProcessor.mk s) x (i, j) edge_attr = Raise e ->
  e = RuntimeError_shape.
Proof.
  intros Hidx. unfold NodeProcessor.forward. cbn [NodeProcessor.node_mlp]. intros H0.
  destruct (scatter edge_attr i (nrows x)) as [agg|?] eqn:Ea; cbn [bind] in H0;
    [|inversion H0; subst; eapply scatter_raise; eassumption].
  destruct (cat2 x agg) as [xa|?] eqn:Exa; cbn [bind] in H0;
    [|inversion H0; subst; eapply cat2_raise; eassumption].
  destruct (Sequential_forward s xa) as [y|?] eqn:Ey; cbn [bind] in H0;
    [|inversion H0; subst; eapply Sequential_forward_raise; eassumption].
  destruct (iadd y x) as [z|?] eqn:Ez; cbn [bind] in H0;
    [discriminate | inversion H0; subst; eapply iadd_raise; eassumption].
Qed.

(** X11: [MeshGraphNetsConv.forward] returns only on inputs of the shapes
    the layer was built for: node features of width [node_dim], edge
    features of width [edge_dim], one index pair per edge and every index
    below the number of nodes; the results then have the row counts and
    widths of the inputs.  No broadcasting and no mismatch passes
    unnoticed. *)
Theorem X11_mgn_forward_requires :
  forall (F : Type) (S : Scalar F) (node_dim edge_dim : nat)
         (edge_net node_net : list F -> list F)
         (x : Tensor2 F) (i j : list nat) (edge_attr x' e' : Tensor2 F),
    MeshGraphNetsConv.forward
      (MeshGraphNetsConv.__init__ node_dim edge_dim edge_net node_net)
      x (i, j) edge_attr = Ok (x', e') ->
    ncols x = node_dim /\ ncols edge_attr = edge_dim /\
    length i = nrows edge_attr /\ length j = nrows edge_attr /\
    Forall (fun k => k < nrows x) i /\ Forall (fun k => k < nrows x) j /\
    nrows x' = nrows x /\ ncols x' = node_dim /\
    nrows e' = nrows edge_attr /\ ncols e' = edge_dim.
Proof.
  intros F S nd ed en nn x i j ea x' e' H0.
  unfold MeshGraphNetsConv.forward, MeshGraphNetsConv.__init__ in H0.
  cbn [MeshGraphNetsConv.edge_processor MeshGraphNetsConv.node_processor app] in H0.
  bind_inv H0 xi Exi. bind_inv H0 xj Exj. bind_inv H0 eo Ee. bind_inv H0 xo En.
  inversion H0; subst.
  apply index_rows_inv in Exi as (Hi & Ci & Ri).
  apply index_rows_inv in Exj as (Hj & Cj & Rj).
  apply EdgeProcessor_forward_inv in Ee as (R1 & R2 & C1 & C2 & C3 & R3).
  apply NodeProcessor_forward_inv in En as (L1 & C4 & C5 & C6 & R4).
  simpl in C1, C2, C3, C4, C5, C6.
  repeat split; try assumption; lia.
Qed.

Lemma X11_mgn_forward_requires_witness :
  ncols tri_x = 2 /\ ncols tri_edge_attr = 1 /\
  length tri_i = nrows tri_edge_attr /\ length tri_j = nrows tri_edge_attr /\
  Forall (fun k => k < nrows tri_x) tri_i /\ Forall (fun k => k < nrows tri_x) tri_j /\
  nrows (mk_T 2 [[2; 109]; [6; 69]; [10; 17]]%Z) = nrows tri_x /\
  ncols (mk_T 2 [[2; 109]; [6; 69]; [10; 17]]%Z) = 2 /\
  nrows (mk_T 1 [[30]; [58]; [74]]%Z) = nrows tri_edge_attr /\
  ncols (mk_T 1 [[30]; [58]; [74]]%Z) = 1.
Proof.
  apply (@X11_mgn_forward_requires Z Scalar_Z 2 1 sum_net head_sum_net
           tri_x tri_i tri_j tri_edge_attr).
  vm_compute. reflexivity.
Defined.


Lemma rows_into_absent {F} (n : nat) :
  forall (index : list nat) (src : list (list F)),
    ~ In n index -> rows_into n index src = [].
Proof.
  induction index as [|k index IH]; intros [|r src] Hn; simpl; try reflexivity.
  destruct (Nat.eqb_spec k n) as [->|Hne].
  - exfalso. apply Hn. now left.
  - apply IH. intros Hin. apply Hn. now right.
Qed.

(** X13: a node that is the first index of no edge is updated from its own
    features alone: its returned row is the node network applied to its row
    followed by [edge_dim] zeros, plus its row.  On a graph without edges
    this holds for every node. *)
Theorem X13_mgn_isolated_nodes :
  forall (F : Type) (S : Scalar F) (node_dim edge_dim : nat)
         (edge_net node_net : list F -> list F)
         (x : Tensor2 F) (i j : list nat) (edge_attr : Tensor2 F),
    (forall r, length r = node_dim * 2 + edge_dim -> length (edge_net r) = edge_dim) ->
    (forall r, length r = node_dim + edge_dim -> length (node_net r) = node_dim) ->
    well_shaped x -> ncols x = node_dim ->
    well_shaped edge_attr -> ncols edge_attr = edge_dim ->
    length i = nrows edge_attr -> length j = nrows edge_attr ->
    Forall (fun k => k < nrows x) i -> Forall (fun k => k < nrows x) j ->
    exists x' e',
      MeshGraphNetsConv.forward
        (MeshGraphNetsConv.__init__ node_dim edge_dim edge_net node_net)
        x (i, j) edge_attr = Ok (x', e') /\
      (forall n xn,
         nth_error (rows x) n = Some xn -> ~ In n i ->
         nth_error (rows x') n
         = Some (add_row (node_net (xn ++ repeat f_zero edge_dim)) xn)).
Proof.
  intros F S nd ed edge_net node_net x i j ea
         Henet Hnnet Hwx Hcx Hwe Hce Hli Hlj Hi Hj.
  unfold MeshGraphNetsConv.forward, MeshGraphNetsConv.__init__.
  cbn [MeshGraphNetsConv.edge_processor MeshGraphNetsConv.node_processor app].
  destruct (index_rows_ok x Hi) as (xi & Exi & Hlxi & _ & HPxi).
  destruct (index_rows_ok x Hj) as (xj & Exj & Hlxj & _ & HPxj).
  rewrite Exi, Exj. cbn [bind].
  destruct (@EdgeProcessor_forward_ok F S
              (mk_Seq (nd * 2 + ed :: repeat ed 3) edge_net)
              (mk_T (ncols x) xi) (mk_T (ncols x) xj) ea)
    as (ers & Ee & Hle & Hwe' & _).
  { intros r Hr. simpl in *. now apply Henet. }
  { simpl. lia. }
  { simpl. now rewrite Hce. }
  { unfold nrows. simpl. fold (nrows ea). lia. }
  { unfold nrows. simpl. fold (nrows ea). lia. }
  { apply HPxi. exact Hwx. }
  { apply HPxj. exact Hwx. }
  { exact Hwe. }
  rewrite Ee. cbn [bind].
  destruct (@NodeProcessor_forward_ok F S
              (mk_Seq (nd + ed :: repeat nd 3) node_net)
              x i j (mk_T (ncols ea) ers))
    as (nrs & En & _ & _ & Hnv).
  { intros r Hr. simpl in *. now apply Hnnet. }
  { simpl. lia. }
  { simpl. now rewrite Hcx. }
  { unfold nrows. simpl. fold (nrows ea). lia. }
  { exact Hi. }
  { exact Hwx. }
  { exact Hwe'. }
  rewrite En. cbn [bind].
  exists (mk_T (ncols x) nrs), (mk_T (ncols ea) ers).
  split; [reflexivity|].
  intros n xn Hxn Hni. simpl. rewrite (Hnv n xn Hxn).
  unfold node_row_spec, aggregate_at. simpl.
  now rewrite rows_into_absent, Hce by exact Hni.
Qed.

Lemma X13_mgn_isolated_nodes_witness :
  exists x' e',
    MeshGraphNetsConv.forward
      (MeshGraphNetsConv.__init__ 2 1 sum_net head_sum_net)
      tri_x (tri_i, tri_j) tri_edge_attr = Ok (x', e') /\
    (forall n xn,
       nth_error (rows tri_x) n = Some xn -> ~ In n tri_i ->
       nth_error (rows x') n
       = Some (add_row (head_sum_net (xn ++ repeat f_zero 1)) xn)).
Proof.
  apply (@X13_mgn_isolated_nodes Z Scalar_Z 2 1 sum_net head_sum_net
           tri_x tri_i tri_j tri_edge_attr).
  - intros r _. reflexivity.
  - intros r _. reflexivity.
  - repeat constructor.
  - reflexivity.
  - repeat constructor.
  - reflexivity.
  - reflexivity.
  - reflexivity.
  - repeat constructor.
  - repeat constructor.
Defined.

(** ** Rows returned by [steinhardt] *)

Lemma scatter_size_bound (index : list nat) :
  Forall (fun k => k < scatter_size index) index.
Proof.
  destruct index as [|k0 index]; [constructor|].
  unfold scatter_size. apply Forall_forall. intros k Hk.
  assert (H : list_max (k0 :: index) <= list_max (k0 :: index)) by lia.
  apply list_max_le in H. rewrite Forall_forall in H. specialize (H k Hk). lia.
Qed.

Lemma scatter_mean_inv {F} `{Scalar F} `{OrderKernels F}
      (src t : Tensor2 F) (index : list nat) :
  scatter_mean src index = Ok t ->
  length index = nrows src /\ nrows t = scatter_size index /\ ncols t = ncols src.
Proof.
  unfold scatter_mean.
  destruct (Nat.eqb_spec (length index) (nrows src)) as [E|E]; [|discriminate].
  intros H1. bind_inv H1 sums Es. inversion H1; subst.
  apply scatter_add_length in Es. rewrite repeat_length in Es.
  unfold nrows in *. cbn [rows ncols].
  rewrite length_zip_with, length_seq. repeat split; lia.
Qed.

Lemma scatter_mean_ok {F} `{Scalar F} `{OrderKernels F}
      (src : Tensor2 F) (index : list nat) :
  length index = nrows src ->
  exists t, scatter_mean src index = Ok t.
Proof.
  intros E. unfold scatter_mean. rewrite E, Nat.eqb_refl.
  destruct (@scatter_add_spec F _ index (rows src)
              (repeat (repeat f_zero (ncols src)) (scatter_size index)))
    as (rs & -> & _).
  { rewrite repeat_length. apply scatter_size_bound. }
  cbn [bind]. eexists. reflexivity.
Qed.

Lemma scatter_mean_raise {F} `{Scalar F} `{OrderKernels F}
      (src : Tensor2 F) (index : list nat) (e : exn) :
  scatter_mean src index = Raise e -> length index <> nrows src.
Proof.
  intros E Hlen. destruct (scatter_mean_ok src index Hlen) as (t & Ht). congruence.
Qed.

Lemma edge_harmonics_inv {F} `{OrderKernels F} (l : nat) (p : Parity)
      (edge_vec t : Tensor2 F) :
  edge_harmonics l p edge_vec = Ok t ->
  ncols edge_vec = 3 /\ nrows t = nrows edge_vec.
Proof.
  unfold edge_harmonics.
  destruct (Nat.eqb_spec (ncols edge_vec) 3) as [E|E]; [|discriminate].
  intros H1. inversion H1; subst. unfold nrows. simpl. now rewrite length_map.
Qed.





(** The edge 2 -> 0 alone: one row is returned without second-shell
    averaging, and second-shell averaging fails on the source index 2. *)
Example steinhardt_single_edge :
  steinhardt 1 ([2], [0]) (mk_T 3 [[1; 0; 0]]%Z) Even false = Ok ([1], [1])%Z /\
  steinhardt 1 ([2], [0]) (mk_T 3 [[1; 0; 0]]%Z) Even true = Raise IndexError.
Proof. split; vm_compute; reflexivity. Qed.

(** ** Values returned by [steinhardt] *)

Lemma scatter_mean_rows {F} `{Scalar F} `{OrderKernels F}
      (src t : Tensor2 F) (index : list nat) :
  scatter_mean src index = Ok t ->
  forall n, n < scatter_size index ->
            nth_error (rows t) n = Some (mean_at (ncols src) n index (rows src)).
Proof.
  unfold scatter_mean.
  destruct (Nat.eqb_spec (length index) (nrows src)) as [E|E]; [|discriminate].
  intros H1 n Hn.
  destruct (@scatter_add_spec F _ index (rows src)
              (repeat (repeat f_zero (ncols src)) (scatter_size index)))
    as (rs & Ers & Hlen & Hnth).
  { rewrite repeat_length. apply scatter_size_bound. }
  rewrite Ers in H1. cbn [bind] in H1. inversion H1; subst. cbn [rows].
  rewrite repeat_length in Hlen.
  assert (Hs : nth_error (seq 0 (length rs)) n = Some n).
  { rewrite nth_error_seq, Hlen. apply Nat.ltb_lt in Hn. now rewrite Hn. }
  assert (Hr : nth_error rs n
               = Some (aggregate_at (ncols src) n index (rows src))).
  { rewrite Hnth, (nth_error_repeat (repeat f_zero (ncols src)) Hn). reflexivity. }
  rewrite (nth_error_zip_with _ _ _ _ Hs Hr). reflexivity.
Qed.






